(** * Radium-Tech: pairs trading, hedge ratios and the backtest engine

    A shallow embedding of [radium/pair/pair.py],
    [radium/strategy/strategy.py] and [radium/strategy/_returns.py].
    The body of [Strategy.returns] in [strategy.py] is the body of
    [returns] in [_returns.py] with [truncate] for [_truncate]; the name
    [truncate] is not bound in [strategy.py], so the method stops there
    with a NameError, and what is embedded as [returns] is the text of
    [_returns.py].

    Conventions of the embedding.
    - Python floats are exact rationals ([Q]) in the first embedding,
      which carries the statements about the shape of the results: which
      rows are written, which exception is raised, which state a call
      reads.  Binary64 rounding is not part of it.  The statements about
      the digits of a result are on the second embedding, [b64], on
      binary64 numbers.  The "not available" value (NaN) of a pandas
      series is [None] in a [list (option Q)].
    - A pandas series of closes is the [list Q] of its values; the two
      series of a pair are on one calendar, so that [pd.concat(.., axis=1)]
      pairs them row by row ([aligned]).
    - A numpy array of shape (n, 2) is a [list (Q * Q)]; an in-place row
      assignment is stdpp's list insert (every assignment of the source
      is in range, where Python would otherwise raise).
    - Dates are day ordinals ([Z]).
    - A raised exception is [inl] of the [error] it raises; an attribute
      that has not been set yet ([hasattr(..) == False]) is [None]. *)

From Stdlib Require Import ZArith QArith Qabs Qminmax Lia String.
From Stdlib Require Floats.PrimFloat Floats.FloatOps Floats.SpecFloat.
From Stdlib Require Uint63.
From stdpp Require Import base option list.

Set Default Proof Using "Type".

(** ** Exceptions *)

Inductive error : Type :=
  | TypeError
  | ValueError
  | IndexError
  | Exception.

Definition result (A : Type) : Type := (error + A)%type.

Definition raise {A : Type} (e : error) : result A := inl e.
Definition ret {A : Type} (a : A) : result A := inr a.

(** ** radium.helpers *)

Module helpers.

(** Modelled from the spec: [radium/helpers.py] is not among the sources;
    [_truncate(n, dec)] is "truncate toward zero to N decimal places",
    with [truncate(1.2399, 2) == 1.23] and
    [truncate(-1.2399, 2) == -1.23].  Every call site has [dec >= 0]. *)
Definition _truncate (n : Q) (dec : Z) : Q :=
  (inject_Z ((Qnum n * 10 ^ dec) ÷ Zpos (Qden n)) / inject_Z (10 ^ dec))%Q.

End helpers.

Import helpers.

(** ** numpy and pandas primitives used by the sources *)

Module np.

(** [np.zeros((n, 2))] *)
Definition zeros (n : nat) : list (Q * Q) := replicate n (0%Q, 0%Q).

(** [np.diff(a)]: [a[i+1] - a[i]], one entry shorter than [a]. *)
Definition diff (a : list Q) : list Q :=
  zip_with (fun next prev => (next - prev)%Q) (tail a) a.

(** [range(lo, hi)] on naturals (empty when [hi <= lo]). *)
Definition range (lo hi : nat) : list nat := seq lo (hi - lo).

(** [l[a:b]] for [0 <= a <= b]. *)
Definition slice {A : Type} (a b : nat) (l : list A) : list A :=
  take (b - a) (drop a l).

(** An array of n rows against a frame of m rows, where the result must
    have m rows: the shapes agree, or a single row is repeated; other
    shapes raise. *)
Definition broadcast_rows {A : Type} (rows : list A) (m : nat)
    : result (list A) :=
  if (length rows =? m)%nat then ret rows
  else match rows with
       | [row] => ret (replicate m row)
       | _ => raise ValueError
       end.

End np.

(** ** radium.Equity, as far as [Pair] and [Strategy] read it *)

Record Equity : Type := mkEquity {
  symbol : string;
  eq_start_date : Z;
  eq_end_date : Z;
  closed : list Q
}.

(** ** radium.pair.Pair *)

Record Pair : Type := mkPair {
  equity1 : Equity;
  equity2 : Equity;
  start_date : Z;
  end_date : Z;
  hedge_ratios : option (list (Q * Q));
  _price_spread : option (list Q)
}.

(** [pd.concat([self.equity1.closed, self.equity2.closed], axis=1)] *)
Definition prices (self : Pair) : list (Q * Q) :=
  zip (closed (equity1 self)) (closed (equity2 self)).

(** The two series share their calendar. *)
Definition aligned (self : Pair) : Prop :=
  length (closed (equity1 self)) = length (closed (equity2 self)).

(** [Pair.__init__]; the two [isinstance] checks are the types. *)
Definition Pair_init (equity1 equity2 : Equity) : result Pair :=
  let start_date :=
    if (eq_start_date equity1 >=? eq_start_date equity2)%Z
    then eq_start_date equity1 else eq_start_date equity2 in
  let end_date :=
    if (eq_end_date equity1 <=? eq_end_date equity2)%Z
    then eq_end_date equity1 else eq_end_date equity2 in
  if (end_date <=? start_date)%Z then raise ValueError
  else ret (mkPair equity1 equity2 start_date end_date None None).

(** Least-squares slope of the response (first column) on the regressor
    (second column) with an intercept, in closed form:
    (n Σxy - Σx Σy) / (n Σx² - (Σx)²).  [statsmodels] is outside the
    repository; this is what [sm.ols("e1 ~ e2", w).fit().params[1]] is on
    a window whose regressor is not constant.  On a constant regressor,
    so also on a window of one row, statsmodels returns the slope of the
    pseudo-inverse solution and this closed form does not.  The
    development below is parametric in the regression routine and runs
    its examples with this one, on windows of two rows or more whose
    regressor is not constant. *)
Definition ols_slope (w : list (Q * Q)) : Q :=
  let n := inject_Z (Z.of_nat (length w)) in
  let sx := foldr (fun r acc => (snd r + acc)%Q) 0%Q w in
  let sy := foldr (fun r acc => (fst r + acc)%Q) 0%Q w in
  let sxy := foldr (fun r acc => (fst r * snd r + acc)%Q) 0%Q w in
  let sxx := foldr (fun r acc => (snd r * snd r + acc)%Q) 0%Q w in
  ((n * sxy - sx * sy) / (n * sxx - sx * sx))%Q.

Section hedge.

(** [sm.ols(formula, df_lookback).fit().params[1]] *)
Variable ols_gradient : list (Q * Q) -> Q.

(** One turn of the loop of [_hedge_ols]. *)
Definition hedge_ols_step (df : list (Q * Q)) (lookback : nat)
    (hedge_ratios : list (Q * Q)) (i : nat) : list (Q * Q) :=
  let df_lookback := np.slice (i - lookback) i df in
  <[(i - 1)%nat := (1%Q, (-1 * ols_gradient df_lookback)%Q)]> hedge_ratios.

(** [Pair._hedge_ols]; [hedge] calls it with [lookback > 0] only. *)
Definition _hedge_ols (self : Pair) (lookback : nat) : list (Q * Q) :=
  let df := prices self in
  foldl (hedge_ols_step df lookback) (np.zeros (length df))
        (np.range lookback (length df)).

(** [Pair.hedge]; [isinstance(method, str)] and [isinstance(lookback, int)]
    are the types. *)
Definition hedge (self : Pair) (method : string) (lookback : Z)
    : result Pair :=
  if (lookback <=? 0)%Z then raise ValueError
  else if String.eqb method "OLS" then
    ret (mkPair (equity1 self) (equity2 self) (start_date self)
                (end_date self)
                (Some (_hedge_ols self (Z.to_nat lookback)))
                (_price_spread self))
  else raise ValueError.

End hedge.

(** [np.sum(self.hedge_ratios * prices, axis=1)] *)
Definition spread_of (hedge_ratios df : list (Q * Q)) : list Q :=
  zip_with (fun h c => (fst h * fst c + snd h * snd c)%Q) hedge_ratios df.

(** The property [Pair.price_spread]: the value read and the object after
    the read (the first read stores [_price_spread]). *)
Definition price_spread (self : Pair) : result (list Q * Pair) :=
  match hedge_ratios self with
  | None => raise Exception
  | Some hr =>
      match _price_spread self with
      | Some cached => ret (cached, self)
      | None =>
          let computed := spread_of hr (prices self) in
          ret (computed,
               mkPair (equity1 self) (equity2 self) (start_date self)
                      (end_date self) (Some hr) (Some computed))
      end
  end.

(** [series.iloc[i]] and [series.iloc[-1]] *)
Definition iloc {A : Type} (l : list A) (i : nat) : result A :=
  match l !! i with
  | Some x => ret x
  | None => raise IndexError
  end.

Definition iloc_last {A : Type} (l : list A) : result A :=
  match last l with
  | Some x => ret x
  | None => raise IndexError
  end.

Definition bind {A B : Type} (m : result A) (k : A -> result B) : result B :=
  match m with
  | inl e => inl e
  | inr a => k a
  end.

Notation "'let*' x ':=' m 'in' k" := (bind m (fun x => k))
  (at level 10, x name, m at level 100, k at level 200).

(** A pair over its life: constructed from two equities, then any
    sequence of calls of [hedge] and reads of [price_spread] that do not
    raise (a call that raises leaves the object as it was). *)
Inductive call : Type :=
  | call_hedge (method : string) (lookback : Z)
  | call_price_spread.

Definition step (ols_gradient : list (Q * Q) -> Q) (self : Pair) (c : call)
    : result Pair :=
  match c with
  | call_hedge method lookback => hedge ols_gradient self method lookback
  | call_price_spread => let* read := price_spread self in ret (snd read)
  end.

Inductive reachable (ols_gradient : list (Q * Q) -> Q) (e1 e2 : Equity)
    : Pair -> Prop :=
  | reach_init (p : Pair) :
      Pair_init e1 e2 = inr p -> reachable ols_gradient e1 e2 p
  | reach_step (p p' : Pair) (c : call) :
      reachable ols_gradient e1 e2 p ->
      step ols_gradient p c = inr p' ->
      reachable ols_gradient e1 e2 p'.

(** [Pair.budget]; the [isinstance] checks are the types. *)
Definition budget (self : Pair) (hedge_ratio : list Q) (dec : Z) : result Q :=
  match hedge_ratio with
  | [h0; h1] =>
      if (dec <? 0)%Z then raise ValueError
      else
        let* equity1_price := iloc_last (closed (equity1 self)) in
        let* equity2_price := iloc_last (closed (equity2 self)) in
        let t0 := _truncate h0 dec in
        let t1 := _truncate h1 dec in
        let budget :=
          (equity1_price * Qabs t0 * inject_Z (10 ^ dec)
           + equity2_price * Qabs t1 * inject_Z (10 ^ dec))%Q in
        ret (_truncate budget 2)
  | _ => raise ValueError
  end.

(** ** radium.strategy.Strategy *)

(** A strategy object: its pair, the [lookback] attribute of the concrete
    strategy and the array its [positions()] returns. *)
Record Strategy : Type := mkStrategy {
  pair : Pair;
  lookback : nat;
  positions : list (Q * Q)
}.

(** One turn of the rounding loop of [returns]. *)
Definition round_step (optimal_positions rounded_positions : list (Q * Q))
    (i : nat) : list (Q * Q) :=
  match optimal_positions !! i with
  | Some (a, b) =>
      <[i := ((_truncate a 3 * inject_Z (10 ^ 3))%Q,
              (_truncate b 3 * inject_Z (10 ^ 3))%Q)]> rounded_positions
  | None => rounded_positions
  end.

Definition rounded_positions (self : Strategy) : list (Q * Q) :=
  let optimal_positions := positions self in
  foldl (round_step optimal_positions)
        (np.zeros (length optimal_positions))
        (np.range (lookback self) (length optimal_positions - 1)).

(** [np.append(0, np.diff(column))] *)
Definition orders (column : list Q) : list Q := 0%Q :: np.diff column.

(** [max(abs(x) * 0.0035, 0.35) if x != 0 else 0] *)
Definition commission (x : Q) : Q :=
  if Qeq_bool x 0 then 0%Q else Qmax (Qabs x * 0.0035) 0.35.

(** One turn of the budget loop of [returns]. *)
Definition budget_step (closed1 closed2 orders1 orders2 comm1 comm2 : list Q)
    (acc : result Q) (i : nat) : result Q :=
  let* budget := acc in
  let* o1 := iloc orders1 i in
  let* p1 := iloc closed1 i in
  let* k1 := iloc comm1 i in
  let budget := (budget + (-1 * o1 * p1 - k1))%Q in
  let* o2 := iloc orders2 i in
  let* p2 := iloc closed2 i in
  let* k2 := iloc comm2 i in
  ret (budget + (-1 * o2 * p2 - k2))%Q.

(** The budget loop of [returns]: [for i in range(0, len(orders1) - 1)]. *)
Definition budget_loop (closed1 closed2 orders1 orders2 comm1 comm2 : list Q)
    (budget : Q) : result Q :=
  foldl (budget_step closed1 closed2 orders1 orders2 comm1 comm2)
        (ret budget) (np.range 0 (length orders1 - 1)).

(** [returns] of [_returns.py].  [Strategy.returns] in [strategy.py] is the
    same text with [truncate] for [_truncate], a name that
    [from radium.helpers import *] does not bind; there the call stops
    with a NameError before any budget is returned. *)
Definition returns (self : Strategy) : result Q :=
  let rounded := rounded_positions self in
  let closed1 := closed (equity1 (pair self)) in
  let closed2 := closed (equity2 (pair self)) in
  let equity1_orders := orders (rounded.*1) in
  let equity2_orders := orders (rounded.*2) in
  let equity1_comm := commission <$> equity1_orders in
  let equity2_comm := commission <$> equity2_orders in
  let* first1 := iloc closed1 0 in
  let* first2 := iloc closed2 0 in
  let init_budget := (1000 * (first1 + first2))%Q in
  let budget := _truncate init_budget 2 in
  let* budget :=
    budget_loop closed1 closed2 equity1_orders equity2_orders
                equity1_comm equity2_comm budget in
  ret (budget / init_budget - 1)%Q.

(** *** Theoretical and cumulative returns *)

Module pd.

(** [frame.shift()]: a "not available" first row, the last row dropped. *)
Definition shift {A : Type} (rows : list A) : list (option A) :=
  match rows with
  | [] => []
  | _ :: _ => None :: (Some <$> removelast rows)
  end.

(** [frame.pct_change()]: [cur / prev - 1], first row "not available". *)
Definition pct_change (df : list (Q * Q)) : list (option (Q * Q)) :=
  match df with
  | [] => []
  | _ :: rest =>
      None :: zip_with (fun cur prev =>
                          Some ((fst cur / fst prev - 1)%Q,
                                (snd cur / snd prev - 1)%Q)) rest df
  end.

(** [series.cumprod()], which skips "not available" entries: they stay
    "not available" and the product runs on past them. *)
Fixpoint cumprod_from (acc : option Q) (s : list (option Q))
    : list (option Q) :=
  match s with
  | [] => []
  | None :: s => None :: cumprod_from acc s
  | Some x :: s =>
      let acc' := match acc with Some a => (a * x)%Q | None => x end in
      Some acc' :: cumprod_from (Some acc') s
  end.

Definition cumprod (s : list (option Q)) : list (option Q) :=
  cumprod_from None s.

(** [frame.fillna(method='ffill')]: a "not available" entry takes the
    latest available value before it, when there is one. *)
Fixpoint ffill_from (prev : option Q) (s : list (option Q))
    : list (option Q) :=
  match s with
  | [] => []
  | None :: s => prev :: ffill_from prev s
  | Some x :: s => Some x :: ffill_from (Some x) s
  end.

Definition ffill (s : list (option Q)) : list (option Q) :=
  ffill_from None s.

End pd.

(** [Strategy.th_returns].  The product [optimal_positions * df.values]
    and the frame built from it on the index of the price data need one
    row of positions per date, or a single row, which numpy repeats.  The
    closes are positive, so that no percent change divides by zero.  The
    numerator [pnl] is "not available" on the first date; the
    denominator sums the available entries only, and where it is zero both
    allocations are zero, so the quotient is 0/0, "not available". *)
Definition th_returns (self : Strategy) : result (list (option Q)) :=
  let df := prices (pair self) in
  let* optimal_positions := np.broadcast_rows (positions self) (length df) in
  let positions :=
    zip_with (fun o c => ((fst o * fst c)%Q, (snd o * snd c)%Q))
             optimal_positions df in
  let close_pct_change := pd.pct_change df in
  let shifted := pd.shift positions in
  let pnl :=
    zip_with (fun s c =>
                match s, c with
                | Some a, Some b => Some (fst a * fst b + snd a * snd b)%Q
                | _, _ => None
                end) shifted close_pct_change in
  let total_position :=
    (fun s : option (Q * Q) =>
       match s with
       | Some a => (Qabs (fst a) + Qabs (snd a))%Q
       | None => 0%Q
       end) <$> shifted in
  ret (zip_with (fun p t =>
                   match p with
                   | Some x => if Qeq_bool t 0 then None else Some (x / t)%Q
                   | None => None
                   end) pnl total_position).

(** [np.cumprod(1 + ret) - 1] followed by the forward fill. *)
Definition cum_returns_of (r : list (option Q)) : list (option Q) :=
  pd.ffill (option_map (fun c => (c - 1)%Q)
              <$> pd.cumprod (option_map (fun x => (1 + x)%Q) <$> r)).

(** [Strategy.cum_returns] *)
Definition cum_returns (self : Strategy) : result (list (option Q)) :=
  let* r := th_returns self in
  ret (cum_returns_of r).

(** ** What the specification says, in its own words *)

(** The budget sizing helper as section 4.4 of the specification words
    it: "truncates each ratio component to [decimals] places, scales to an
    integer-equivalent magnitude, multiplies by the most recent close price
    of each instrument, sums, and truncates the total to 2 decimal
    places". *)
Definition requiredBudget (recent_close : Q * Q) (hedgeRatio : Q * Q)
    (decimals : Z) : Q :=
  let magnitude (h : Q) :=
    (Qabs (_truncate h decimals) * inject_Z (10 ^ decimals))%Q in
  _truncate (fst recent_close * magnitude (fst hedgeRatio)
             + snd recent_close * magnitude (snd hedgeRatio))%Q 2.

(** The running product [(1 + r1) (1 + r2) ..] of a list of available
    returns; there is none for the empty list. *)
Definition running_product (rs : list Q) : option Q :=
  match rs with
  | [] => None
  | r :: rs => Some (foldl (fun acc x => (acc * (1 + x))%Q) (1 + r)%Q rs)
  end.

(** The available entries of a sequence, in order. *)
Definition available (r : list (option Q)) : list Q := omap id r.

(** The running product carried on from [acc], when there is one. *)
Definition product_from (acc : option Q) (rs : list Q) : option Q :=
  foldl (fun acc x =>
           Some (match acc with
                 | Some a => (a * (1 + x))%Q
                 | None => (1 + x)%Q
                 end)) acc rs.

(** A row of two zeros, up to the fraction that represents zero. *)
Definition zero_row (r : Q * Q) : Prop := (fst r == 0)%Q /\ (snd r == 0)%Q.

(** ** Fixtures *)

Module fixtures.

(** Two four-day series on one calendar (days 0 to 3). *)
Definition eq_a : Equity := mkEquity "A" 0 3 [1; 3; 4; 8]%Q.
Definition eq_b : Equity := mkEquity "B" 0 3 [1; 2; 3; 4]%Q.

Definition pair_ab : Pair := mkPair eq_a eq_b 0 3 None None.

(** A strategy on that pair, with a lookback of one day. *)
Definition strategy_ab : Strategy :=
  mkStrategy pair_ab 1 [(1, -1); (1, -1); (0.5, -1); (2, 3)]%Q.

End fixtures.

(** ** The plotting methods of [Pair], up to the drawing *)

(** The attributes an object of the class carries: the four [__init__]
    sets, and those [hedge] and [price_spread] add.  No method of the class
    sets an attribute of another name. *)
Definition attrs (self : Pair) : list string :=
  ["equity1"%string; "equity2"%string; "start_date"%string;
   "end_date"%string]
  ++ match hedge_ratios self with
     | Some _ => ["hedge_ratios"%string]
     | None => []
     end
  ++ match _price_spread self with
     | Some _ => ["_price_spread"%string]
     | None => []
     end.

Definition hasattr (self : Pair) (name : string) : bool :=
  existsb (String.eqb name) (attrs self).

(** [Pair.plot_price_spread] up to the call of [plt.plot]: the spread it
    would draw and the object after the read. *)
Definition plot_price_spread (self : Pair) : result (list Q * Pair) :=
  if negb (hasattr self "_hedge_ratios") then raise Exception
  else price_spread self.

(** [Pair.plot_closed] up to the selection of the rows: the date range it
    would draw.  An argument left out is [None]; an argument given is the
    date [_convert_date] makes of it. *)
Definition plot_closed_range (self : Pair) (start_arg end_arg : option Z)
    : result (Z * Z) :=
  let first := match start_arg with
               | None => start_date self
               | Some d => d
               end in
  let final := match end_arg with
               | None => end_date self
               | Some d => d
               end in
  if (final <=? first)%Z then raise ValueError
  else if (first <? start_date self)%Z then raise ValueError
  else if (final >? end_date self)%Z then raise ValueError
  else ret (first, final).

(** ** The risk metrics of [Strategy] *)

(** [np.min(ret)] and [np.max(ret)] on a series: the least and the greatest
    available entry, "not available" when there is none. *)
Definition series_min (s : list (option Q)) : option Q :=
  match available s with
  | [] => None
  | x :: xs => Some (foldl Qmin x xs)
  end.

Definition series_max (s : list (option Q)) : option Q :=
  match available s with
  | [] => None
  | x :: xs => Some (foldl Qmax x xs)
  end.

(** [Strategy.MDD].  The result is a float; [None] stands for one that is
    not a finite number: "not available" when no return is available, and
    the quotient by a greatest return of zero. *)
Definition MDD (self : Strategy) : result (option Q) :=
  let* r := th_returns self in
  ret (match series_min r, series_max r with
       | Some lowest, Some highest =>
           if Qeq_bool highest 0 then None
           else Some ((lowest - highest) / highest)%Q
       | _, _ => None
       end).

(** What [Strategy.ann_returns] can raise: what [cum_returns] raises, or
    the KeyError of a column that is not in the frame. *)
Inductive ann_error : Type :=
  | Raised (e : error)
  | KeyError.

(** [frame[key]] on a frame given as its labelled columns. *)
Definition getitem (columns : list (Z * list (option Q))) (key : Z)
    : option (list (option Q)) :=
  snd <$> List.find (fun column => (fst column =? key)%Z) columns.

Section ann_returns.

(** [x ** y] on floats. *)
Variable power : Q -> Q -> Q.

(** [Strategy.ann_returns].  [cum_returns] returns the one-column frame
    [pd.DataFrame(series)], whose column has the label 0, and
    [cum_returns[-1]] asks the frame for the column of label -1. *)
Definition ann_returns (self : Strategy) : ann_error + list (option Q) :=
  let days := (end_date (pair self) - start_date (pair self))%Z in
  match cum_returns self with
  | inl e => inl (Raised e)
  | inr column =>
      match getitem [(0%Z, column)] (-1) with
      | None => inl KeyError
      | Some final_cum =>
          inr (option_map
                 (fun c => (power (1 + c) (365 / inject_Z days) - 1)%Q)
                 <$> final_cum)
      end
  end.

End ann_returns.

(** ** The budget and the realized return on binary64 numbers

    Where a claim is about the digits of a result, the code is embedded
    once more on Rocq's primitive floats, which are the binary64 numbers
    of Python and numpy with the same rounding of every operation.  The
    series of closes are passed as lists of floats. *)

Module b64.

Import PrimFloat.

#[local] Set Warnings "-inexact-float".

(** The exact value of a finite float. *)
Definition exact (f : float) : Q :=
  match FloatOps.Prim2SF f with
  | SpecFloat.S754_finite s m e =>
      let magnitude :=
        if (0 <=? e)%Z then inject_Z (Zpos m * 2 ^ e)
        else (Zpos m # Z.to_pos (2 ^ (- e))) in
      if s then (- magnitude)%Q else magnitude
  | _ => 0%Q
  end.

(** [float(int(f))]: the integer part of a float, toward zero. *)
Definition trunc (f : float) : float :=
  match FloatOps.Prim2SF f with
  | SpecFloat.S754_finite s m e =>
      if (0 <=? e)%Z then f
      else
        let q := Z.shiftr (Zpos m) (- e) in
        if (q =? 0)%Z then 0%float
        else if s then (- of_uint63 (Uint63.of_Z q))%float
             else of_uint63 (Uint63.of_Z q)
  | _ => f
  end.

(** [10 ** dec] as a float, for [0 <= dec <= 18]. *)
Definition pow10 (dec : Z) : float := of_uint63 (Uint63.of_Z (10 ^ dec)).

(** Modelled from the spec: [radium/helpers.py] is not among the sources;
    [_truncate(n, dec)] is "truncate toward zero to N decimal places",
    done with a power of ten (section 9): the integer part of
    [n * 10 ** dec], over [10 ** dec]. *)
Definition _truncate (n : float) (dec : Z) : float :=
  (trunc (n * pow10 dec) / pow10 dec)%float.

(** Python's [max(a, b)]: [b] when [b > a], else [a]. *)
Definition max (a b : float) : float := if (a <? b)%float then b else a.

(** [max(abs(x) * 0.0035, 0.35) if x != 0 else 0] *)
Definition commission (x : float) : float :=
  if negb (x =? 0)%float then max (abs x * 0.0035)%float 0.35%float
  else 0%float.

(** [Pair.budget] on the closes of the two equities. *)
Definition budget (closed1 closed2 hedge_ratio : list float) (dec : Z)
    : result float :=
  match hedge_ratio with
  | [h0; h1] =>
      if (dec <? 0)%Z then raise ValueError
      else
        let* equity1_price := iloc_last closed1 in
        let* equity2_price := iloc_last closed2 in
        let t0 := _truncate h0 dec in
        let t1 := _truncate h1 dec in
        let budget :=
          (equity1_price * abs t0 * pow10 dec
           + equity2_price * abs t1 * pow10 dec)%float in
        ret (_truncate budget 2)
  | _ => raise ValueError
  end.

(** The row the rounding loop of [returns] writes for a position. *)
Definition round_row (o : float * float) : float * float :=
  ((_truncate (fst o) 3 * pow10 3)%float,
   (_truncate (snd o) 3 * pow10 3)%float).

Definition round_step (optimal_positions rounded_positions
    : list (float * float)) (i : nat) : list (float * float) :=
  match round_row <$> optimal_positions !! i with
  | Some row => <[i := row]> rounded_positions
  | None => rounded_positions
  end.

Definition rounded_positions (lookback : nat)
    (optimal_positions : list (float * float)) : list (float * float) :=
  foldl (round_step optimal_positions)
        (replicate (length optimal_positions) (0%float, 0%float))
        (np.range lookback (length optimal_positions - 1)).

(** [np.append(0, np.diff(column))] *)
Definition orders (column : list float) : list float :=
  0%float :: zip_with (fun next prev => (next - prev)%float)
                      (tail column) column.

Definition budget_step
    (closed1 closed2 orders1 orders2 comm1 comm2 : list float)
    (acc : result float) (i : nat) : result float :=
  let* budget := acc in
  let* o1 := iloc orders1 i in
  let* p1 := iloc closed1 i in
  let* k1 := iloc comm1 i in
  let budget := (budget + (-1 * o1 * p1 - k1))%float in
  let* o2 := iloc orders2 i in
  let* p2 := iloc closed2 i in
  let* k2 := iloc comm2 i in
  ret (budget + (-1 * o2 * p2 - k2))%float.

Definition budget_loop
    (closed1 closed2 orders1 orders2 comm1 comm2 : list float)
    (budget : float) : result float :=
  foldl (budget_step closed1 closed2 orders1 orders2 comm1 comm2)
        (ret budget) (np.range 0 (length orders1 - 1)).

(** [returns] of [_returns.py], on the lookback, the positions and the
    closes it reads from [self]. *)
Definition returns (lookback : nat) (optimal_positions : list (float * float))
    (closed1 closed2 : list float) : result float :=
  let rounded := rounded_positions lookback optimal_positions in
  let equity1_orders := orders (rounded.*1) in
  let equity2_orders := orders (rounded.*2) in
  let equity1_comm := commission <$> equity1_orders in
  let equity2_comm := commission <$> equity2_orders in
  let* first1 := iloc closed1 0 in
  let* first2 := iloc closed2 0 in
  let init_budget := (1000 * (first1 + first2))%float in
  let budget := _truncate init_budget 2 in
  let* budget :=
    budget_loop closed1 closed2 equity1_orders equity2_orders
                equity1_comm equity2_comm budget in
  ret (budget / init_budget - 1)%float.

(** *** The same, date by date *)

(** The rounded position of date [k]: the truncated position from the
    lookback on, the last date aside, and zero otherwise. *)
Definition rounded_at (lookback : nat)
    (optimal_positions : list (float * float)) (k : nat) : float * float :=
  match optimal_positions !! k with
  | Some o =>
      if decide (lookback <= k /\ k + 1 < length optimal_positions)%nat
      then round_row o else (0%float, 0%float)
  | None => (0%float, 0%float)
  end.

(** The order of date [k]: nothing on the first date, then the change of
    the rounded position. *)
Definition order_at (position_at : nat -> float) (k : nat) : float :=
  match k with
  | O => 0%float
  | S j => (position_at (S j) - position_at j)%float
  end.

(** What one date takes from the budget for one instrument: the order at
    the close of the date, and the commission of the order. *)
Definition charge (budget order close : float) : float :=
  (budget + (-1 * order * close - commission order))%float.

(** The budget after the first [k] dates. *)
Fixpoint budget_after (lookback : nat)
    (optimal_positions : list (float * float)) (closed1 closed2 : list float)
    (start : float) (k : nat) : float :=
  match k with
  | O => start
  | S j =>
      let before :=
        budget_after lookback optimal_positions closed1 closed2 start j in
      let position1 i := fst (rounded_at lookback optimal_positions i) in
      let position2 i := snd (rounded_at lookback optimal_positions i) in
      charge (charge before (order_at position1 j)
                     (nth j closed1 0%float))
             (order_at position2 j) (nth j closed2 0%float)
  end.

(** The budget sizing helper as section 4.4 of the specification words
    it, each step a binary64 operation: every component is truncated to
    [decimals] places, its magnitude scaled by the power of ten and
    multiplied by the latest close of its instrument; the products are
    summed and the sum truncated to 2 places. *)
Definition requiredBudget (components : list (float * float))
    (decimals : Z) : float :=
  let priced (component : float * float) :=
    (snd component * abs (_truncate (fst component) decimals)
     * pow10 decimals)%float in
  let total := match priced <$> components with
               | [] => 0%float
               | first :: rest => foldl add first rest
               end in
  _truncate total 2.

End b64.

(** ** Vocabulary of the statements below *)
(** The theoretical return of a date from the position [o] and the closes
    [c] of the date before and the closes [c'] of the date: profit and
    loss over the capital allocated, "not available" when nothing is
    allocated. *)
Definition th_return_at (o c c' : Q * Q) : option Q :=
  let a := ((fst o * fst c)%Q, (snd o * snd c)%Q) in
  let b := ((fst c' / fst c - 1)%Q, (snd c' / snd c - 1)%Q) in
  if Qeq_bool (Qabs (fst a) + Qabs (snd a)) 0 then None
  else Some ((fst a * fst b + snd a * snd b)
             / (Qabs (fst a) + Qabs (snd a)))%Q.

(** The dates a turn of the budget loop can serve. *)
Definition served (closed1 closed2 orders1 orders2 comm1 comm2 : list Q)
    (i : nat) : Prop :=
  (i < length orders1 /\ i < length closed1 /\ i < length comm1
   /\ i < length orders2 /\ i < length closed2 /\ i < length comm2)%nat.

(** The sum of a list. *)
Definition Qsum (l : list Q) : Q := foldr Qplus 0%Q l.

(** ** Rows written by the loop of [_hedge_ols] *)

Section hedge_rows.

Variable ols_gradient : list (Q * Q) -> Q.

Lemma hedge_ols_step_length df lookback hr i :
  length (hedge_ols_step ols_gradient df lookback hr i) = length hr.
Proof. unfold hedge_ols_step. apply length_insert. Qed.

Lemma hedge_ols_fold_length df lookback (idx : list nat) hr :
  length (foldl (hedge_ols_step ols_gradient df lookback) hr idx) = length hr.
Proof.
  revert hr. induction idx as [|i idx IH]; intros hr; simpl; [done|].
  rewrite IH. apply hedge_ols_step_length.
Qed.

(** Row [j] after the turns [start, start+1, .., start+cnt-1]: the turn
    [j+1] wrote it, if there was one. *)
Lemma hedge_ols_fold_lookup df lookback cnt : forall start hr j,
  (0 < start)%nat ->
  foldl (hedge_ols_step ols_gradient df lookback) hr (seq start cnt) !! j =
    if decide (start <= j + 1 < start + cnt /\ j < length hr)%nat
    then Some (1%Q, (-1 * ols_gradient
                   (np.slice (j + 1 - lookback) (j + 1) df))%Q)
    else hr !! j.
Proof.
  induction cnt as [|cnt IH]; intros start hr j Hs; simpl.
  - case_decide; [lia|done].
  - rewrite IH by lia. rewrite hedge_ols_step_length.
    unfold hedge_ols_step at 1.
    destruct (decide (j = start - 1)%nat) as [->|Hne].
    + replace (start - 1 + 1)%nat with start by lia.
      repeat case_decide; try lia; try done.
      * rewrite list_lookup_insert_eq by lia. done.
      * rewrite !(proj2 (lookup_ge_None _ _)); [done|lia|].
        rewrite length_insert. lia.
    + rewrite list_lookup_insert_ne by lia.
      repeat case_decide; try lia; done.
Qed.

Lemma hedge_ols_length self lookback :
  length (_hedge_ols ols_gradient self lookback) = length (prices self).
Proof.
  unfold _hedge_ols. rewrite hedge_ols_fold_length.
  unfold np.zeros. apply length_replicate.
Qed.

Lemma hedge_ols_lookup self lookback j :
  (0 < lookback)%nat ->
  _hedge_ols ols_gradient self lookback !! j =
    if decide (lookback <= j + 1 < length (prices self))%nat
    then Some (1%Q, (-1 * ols_gradient
                   (np.slice (j + 1 - lookback) (j + 1) (prices self)))%Q)
    else np.zeros (length (prices self)) !! j.
Proof.
  intros HL. unfold _hedge_ols, np.range.
  rewrite hedge_ols_fold_lookup by done.
  unfold np.zeros. rewrite length_replicate.
  repeat case_decide; try lia; done.
Qed.

End hedge_rows.

Lemma prices_length self :
  aligned self -> length (prices self) = length (closed (equity1 self)).
Proof. unfold aligned, prices. intros H. rewrite length_zip. lia. Qed.

Lemma slice_length {A : Type} (a b : nat) (l : list A) :
  (a <= b <= length l)%nat -> length (np.slice a b l) = (b - a)%nat.
Proof. intros H. unfold np.slice. rewrite length_take, length_drop. lia. Qed.

Lemma slice_lookup {A : Type} (a b k : nat) (l : list A) :
  (k < b - a)%nat -> np.slice a b l !! k = l !! (a + k)%nat.
Proof.
  intros H. unfold np.slice. rewrite lookup_take_lt by done.
  apply lookup_drop.
Qed.

(** Refutes an equation [a == b] between two closed rationals. *)
Ltac refute_Qeq :=
  let H := fresh "H" in intros H; vm_compute in H; discriminate H.

(** ** C8: construction of a pair *)

Lemma resolved_start_is_max (e1 e2 : Equity) :
  (if (eq_start_date e1 >=? eq_start_date e2)%Z
   then eq_start_date e1 else eq_start_date e2)
  = Z.max (eq_start_date e1) (eq_start_date e2).
Proof. destruct (Z.geb_spec (eq_start_date e1) (eq_start_date e2)); lia. Qed.

Lemma resolved_end_is_min (e1 e2 : Equity) :
  (if (eq_end_date e1 <=? eq_end_date e2)%Z
   then eq_end_date e1 else eq_end_date e2)
  = Z.min (eq_end_date e1) (eq_end_date e2).
Proof. destruct (Z.leb_spec (eq_end_date e1) (eq_end_date e2)); lia. Qed.

(** C8.  For every two price series, [Pair_init] either fails, and does so
    exactly when min(end1, end2) <= max(start1, start2), or returns a pair
    whose [start_date] is the later start, whose [end_date] is the earlier
    end, and whose [end_date] is strictly after its [start_date]. *)
Theorem Pair_init_range (e1 e2 : Equity) :
  let s := Z.max (eq_start_date e1) (eq_start_date e2) in
  let e := Z.min (eq_end_date e1) (eq_end_date e2) in
  ((exists err, Pair_init e1 e2 = inl err) <-> (e <= s)%Z)
  /\ (forall p, Pair_init e1 e2 = inr p ->
        start_date p = s /\ end_date p = e /\ (end_date p > start_date p)%Z
        /\ equity1 p = e1 /\ equity2 p = e2)
  /\ ((s < e)%Z -> exists p, Pair_init e1 e2 = inr p).
Proof.
  intros s e. unfold Pair_init.
  rewrite resolved_start_is_max, resolved_end_is_min.
  fold s e. destruct (Z.leb_spec e s) as [Hle|Hlt]; unfold raise, ret.
  - split; [|split].
    + split; [intros _; exact Hle | intros _; eauto].
    + intros p Hp. discriminate Hp.
    + intros Hlt. lia.
  - split; [|split].
    + split; [intros [err Herr]; discriminate Herr | lia].
    + intros p Hp. injection Hp as <-. simpl. repeat split; try done. lia.
    + intros _. eauto.
Qed.

Lemma Pair_init_range_witness :
  (Z.max 0 0 < Z.min 3 3)%Z /\
  exists p, Pair_init fixtures.eq_a fixtures.eq_b = inr p.
Proof.
  split; [reflexivity|].
  apply (Pair_init_range fixtures.eq_a fixtures.eq_b). reflexivity.
Defined.

(** ** C1 and C5: the rows of the hedge-ratio series *)

Section hedge_claims.

Variable ols_gradient : list (Q * Q) -> Q.

(** C1, as amended.  For every pair on one calendar and every lookback
    L > 0, a row of [_hedge_ols] with index below L is the zero vector
    unless it is row L-1 of a series with more than L rows; that row is
    [1, -β] of the first window [0, L). *)
Theorem hedge_ols_warmup_rows (self : Pair) (L i : nat) :
  aligned self ->
  (0 < L)%nat ->
  (i < L)%nat ->
  let n := length (closed (equity1 self)) in
  (i < n)%nat ->
  _hedge_ols ols_gradient self L !! i
  = Some (if decide (i + 1 = L /\ L < n)%nat
          then (1%Q, (-1 * ols_gradient (np.slice 0 L (prices self)))%Q)
          else (0%Q, 0%Q)).
Proof.
  intros Hal HL Hi n Hn.
  rewrite hedge_ols_lookup by done.
  rewrite prices_length by done. fold n.
  destruct (decide (i + 1 = L /\ L < n)%nat) as [[<- HLn]|Hno].
  - rewrite decide_True by lia.
    replace (i + 1 - (i + 1))%nat with 0%nat by lia. done.
  - rewrite decide_False by lia.
    unfold np.zeros. apply lookup_replicate. split; [done|lia].
Qed.

(** C5.  For every pair on one calendar, every lookback L > 0 and every
    i with L <= i < n, the window of turn i holds exactly the L rows
    i-L, .., i-1 of the price frame, and the vector [1, -β] of that
    window is what row i-1 of the result holds; row i holds the vector
    of the next window, or the zero vector when i is the last index. *)
Theorem hedge_ols_window_row (self : Pair) (L i : nat) :
  aligned self ->
  (0 < L)%nat ->
  (L <= i < length (closed (equity1 self)))%nat ->
  let df := prices self in
  let window := np.slice (i - L) i df in
  length window = L
  /\ (forall k, (k < L)%nat -> window !! k = df !! (i - L + k)%nat)
  /\ _hedge_ols ols_gradient self L !! (i - 1)%nat
     = Some (1%Q, (-1 * ols_gradient window)%Q)
  /\ _hedge_ols ols_gradient self L !! i
     = Some (if decide (i + 1 < length df)%nat
             then (1%Q, (-1 * ols_gradient
                                (np.slice (i + 1 - L) (i + 1) df))%Q)
             else (0%Q, 0%Q)).
Proof.
  intros Hal HL Hi df window.
  pose proof (prices_length self Hal) as Hn. fold df in Hn.
  split; [|split; [|split]].
  - unfold window. rewrite slice_length by lia. lia.
  - intros k Hk. unfold window. apply slice_lookup. lia.
  - rewrite hedge_ols_lookup by done. fold df.
    replace (i - 1 + 1)%nat with i by lia.
    case_decide; [done|lia].
  - rewrite hedge_ols_lookup by done. fold df.
    repeat case_decide; try lia; try done.
    unfold np.zeros. apply lookup_replicate. split; [done|lia].
Qed.

End hedge_claims.

(** C1, as the specification states it, fails: with a lookback of 2 on a
    four-day series, row 1 is [1, -2], not the zero vector. *)
Lemma hedge_ols_warmup_counterexample :
  ~ (forall (i : nat) (row : Q * Q),
       (i < 2)%nat ->
       _hedge_ols ols_slope fixtures.pair_ab 2 !! i = Some row ->
       row = (0%Q, 0%Q)).
Proof.
  intros H. specialize (H 1%nat (1%Q, (-2)%Q)).
  assert (Hne : (1%Q, (-2)%Q) = (0%Q, 0%Q)) by (apply H; [lia|reflexivity]).
  discriminate Hne.
Qed.

Lemma hedge_ols_warmup_rows_witness :
  _hedge_ols ols_slope fixtures.pair_ab 2 !! 0%nat = Some (0%Q, 0%Q).
Proof.
  apply (hedge_ols_warmup_rows ols_slope fixtures.pair_ab 2 0).
  - reflexivity.
  - lia.
  - lia.
  - simpl. lia.
Defined.

Lemma hedge_ols_window_row_witness :
  _hedge_ols ols_slope fixtures.pair_ab 2 !! 1%nat = Some (1%Q, (-2)%Q).
Proof.
  apply (hedge_ols_window_row ols_slope fixtures.pair_ab 2 2).
  - reflexivity.
  - lia.
  - simpl. lia.
Defined.

(** ** C2 and C6: the cached price spread *)

Lemma spread_of_lookup (hr df : list (Q * Q)) (i : nat) (h c : Q * Q) :
  hr !! i = Some h -> df !! i = Some c ->
  spread_of hr df !! i = Some (fst h * fst c + snd h * snd c)%Q.
Proof.
  intros Hh Hc. unfold spread_of. rewrite lookup_zip_with, Hh, Hc. done.
Qed.

(** Reading the spread before any estimate raises, and no attribute is
    set: the failed read returns no new object. *)
Lemma price_spread_before_hedge (self : Pair) :
  hedge_ratios self = None -> price_spread self = inl Exception.
Proof. intros H. unfold price_spread. rewrite H. done. Qed.

Lemma Pair_init_price_spread (e1 e2 : Equity) (p : Pair) :
  Pair_init e1 e2 = inr p -> price_spread p = inl Exception.
Proof.
  unfold Pair_init. intros H. apply price_spread_before_hedge.
  destruct (_ <=? _)%Z in H; [discriminate H|].
  injection H as <-. done.
Qed.

(** The first read after an estimate computes the spread of the current
    hedge ratios, date by date, and stores it. *)
Lemma price_spread_first_read (self : Pair) (hr : list (Q * Q)) :
  hedge_ratios self = Some hr ->
  _price_spread self = None ->
  exists sp self',
    price_spread self = inr (sp, self')
    /\ _price_spread self' = Some sp
    /\ hedge_ratios self' = Some hr
    /\ forall i h c, hr !! i = Some h -> prices self !! i = Some c ->
         sp !! i = Some (fst h * fst c + snd h * snd c)%Q.
Proof.
  intros Hhr Hsp. unfold price_spread. rewrite Hhr, Hsp.
  eexists _, _. split; [done|]. simpl. repeat split.
  intros i h c Hh Hc. by apply spread_of_lookup.
Qed.

(** A later read returns what is stored, whatever the hedge ratios are. *)
Lemma price_spread_reads_cache (self : Pair) (hr : list (Q * Q))
    (sp : list Q) :
  hedge_ratios self = Some hr ->
  _price_spread self = Some sp ->
  price_spread self = inr (sp, self).
Proof. intros Hhr Hsp. unfold price_spread. rewrite Hhr, Hsp. done. Qed.

(** [hedge] replaces the hedge ratios and leaves [_price_spread] alone. *)
Lemma hedge_keeps_cached_spread ols (self self' : Pair) (method : string)
    (L : Z) :
  hedge ols self method L = inr self' ->
  _price_spread self' = _price_spread self
  /\ hedge_ratios self' = Some (_hedge_ols ols self (Z.to_nat L)).
Proof.
  unfold hedge. destruct (L <=? 0)%Z; [discriminate|].
  destruct (String.eqb method "OLS"); [|discriminate].
  intros H. injection H as <-. done.
Qed.

(** So a spread that was read once survives every later estimate. *)
Lemma rehedge_reads_old_spread ols (self self' : Pair) (method : string)
    (L : Z) (sp : list Q) :
  _price_spread self = Some sp ->
  hedge ols self method L = inr self' ->
  price_spread self' = inr (sp, self').
Proof.
  intros Hsp Hh. apply hedge_keeps_cached_spread in Hh as [Hkeep Hnew].
  eapply price_spread_reads_cache; [exact Hnew|]. by rewrite Hkeep.
Qed.

Lemma hedge_ols_same_prices ols (p p' : Pair) (L : nat) :
  prices p = prices p' -> _hedge_ols ols p L = _hedge_ols ols p' L.
Proof. intros H. unfold _hedge_ols. by rewrite H. Qed.

(** What the code does keep in every reachable state: the hedge ratios
    are those of some estimate, and a stored spread is the spread of some
    estimate, not necessarily the same one. *)
Lemma reachable_invariant ols (e1 e2 : Equity) (p : Pair) :
  reachable ols e1 e2 p ->
  prices p = zip (closed e1) (closed e2)
  /\ (forall hr, hedge_ratios p = Some hr ->
        exists L, (0 < L)%Z /\ hr = _hedge_ols ols p (Z.to_nat L))
  /\ (forall sp, _price_spread p = Some sp ->
        exists L, (0 < L)%Z
                  /\ sp = spread_of (_hedge_ols ols p (Z.to_nat L)) (prices p)).
Proof.
  induction 1 as [p Hinit|p p' c Hreach (Hpr & Hhr & Hsp) Hstep].
  - unfold Pair_init in Hinit.
    destruct (_ <=? _)%Z in Hinit; [discriminate Hinit|].
    injection Hinit as <-. by repeat split.
  - destruct c as [method L|]; simpl in Hstep.
    + unfold hedge in Hstep.
      destruct (Z.leb_spec L 0) as [|HL]; [discriminate Hstep|].
      destruct (String.eqb method "OLS"); [|discriminate Hstep].
      injection Hstep as <-.
      assert (Hsame : forall K, _hedge_ols ols
                (mkPair (equity1 p) (equity2 p) (start_date p) (end_date p)
                        (Some (_hedge_ols ols p (Z.to_nat L)))
                        (_price_spread p)) K = _hedge_ols ols p K)
        by (intros K; by apply hedge_ols_same_prices).
      split; [exact Hpr|]. split.
      * intros hr Heq. simpl in Heq. injection Heq as <-.
        exists L. by rewrite Hsame.
      * intros sp Heq. simpl in Heq.
        destruct (Hsp sp Heq) as (K & HK & ->).
        exists K. by rewrite Hsame.
    + unfold price_spread in Hstep.
      destruct (hedge_ratios p) as [hr|] eqn:Ehr; [|discriminate Hstep].
      destruct (_price_spread p) as [sp|] eqn:Esp; simpl in Hstep;
        injection Hstep as <-.
      * rewrite Ehr, Esp. by repeat split.
      * destruct (Hhr hr eq_refl) as (K & HK & ->).
        set (p' := mkPair _ _ _ _ _ _).
        assert (Hsame : _hedge_ols ols p' (Z.to_nat K)
                        = _hedge_ols ols p (Z.to_nat K))
          by (by apply hedge_ols_same_prices).
        split; [exact Hpr|]. split; intros x Heq; simpl in Heq;
          injection Heq as <-; exists K; (split; [done|]);
          by rewrite Hsame.
Qed.

(** C2, on the code: construct the pair of the fixtures, estimate with
    lookback 2, read the spread, estimate again with lookback 3, read the
    spread.  The state after the second estimate is reachable, and the read
    in it returns the list of the first read, which was computed from the
    hedge ratios of the first estimate; on day 1 it holds -1 where the
    current hedge ratios give 0. *)
Theorem price_spread_stale_after_rehedge :
  exists (s1 s2 s3 : Pair) (sp1 sp3 : list Q) (hr1 hr3 : list (Q * Q)),
    Pair_init fixtures.eq_a fixtures.eq_b = inr fixtures.pair_ab
    /\ hedge ols_slope fixtures.pair_ab "OLS" 2 = inr s1
    /\ hedge_ratios s1 = Some hr1
    /\ price_spread s1 = inr (sp1, s2)
    /\ hedge ols_slope s2 "OLS" 3 = inr s3
    /\ reachable ols_slope fixtures.eq_a fixtures.eq_b s3
    /\ hedge_ratios s3 = Some hr3
    /\ price_spread s3 = inr (sp3, s3)
    /\ sp3 = sp1
    /\ sp3 = spread_of hr1 (prices s3)
    /\ sp3 !! 1%nat = Some (-1)%Q
    /\ exists fresh, spread_of hr3 (prices s3) !! 1%nat = Some fresh
                     /\ (fresh == 0)%Q /\ ~ (-1 == fresh)%Q.
Proof.
  assert (R0 : reachable ols_slope fixtures.eq_a fixtures.eq_b
                 fixtures.pair_ab) by (by apply reach_init).
  pose proof (reach_step _ _ _ _ _ (call_hedge "OLS" 2) R0 eq_refl) as R1.
  pose proof (reach_step _ _ _ _ _ call_price_spread R1 eq_refl) as R2.
  pose proof (reach_step _ _ _ _ _ (call_hedge "OLS" 3) R2 eq_refl) as R3.
  eexists _, _, _, _, _, _, _.
  do 5 (split; [reflexivity|]).
  split; [exact R3|].
  repeat (split; [reflexivity|]).
  eexists. split; [reflexivity|]. split; [reflexivity|].
  refute_Qeq.
Qed.

(** C6, on the code: in the same run the read that follows the second
    successful estimate returns, on day 2, the value 1, while the hedge
    vector assigned to day 2 is [1, -3/2] and the closes are 4 and 3, so
    that h1*close1 + h2*close2 is -1/2. *)
Theorem price_spread_after_estimate_not_pointwise :
  exists (s1 s2 s3 : Pair) (sp1 sp3 : list Q) (h c : Q * Q) (v : Q),
    Pair_init fixtures.eq_a fixtures.eq_b = inr fixtures.pair_ab
    /\ hedge ols_slope fixtures.pair_ab "OLS" 2 = inr s1
    /\ price_spread s1 = inr (sp1, s2)
    /\ hedge ols_slope s2 "OLS" 3 = inr s3
    /\ price_spread s3 = inr (sp3, s3)
    /\ hedge_ratios s3 = Some (_hedge_ols ols_slope s2 3)
    /\ _hedge_ols ols_slope s2 3 !! 2%nat = Some h
    /\ prices s3 !! 2%nat = Some c
    /\ sp3 !! 2%nat = Some v
    /\ (v == 1)%Q
    /\ (fst h * fst c + snd h * snd c == -1 # 2)%Q
    /\ ~ (v == fst h * fst c + snd h * snd c)%Q.
Proof.
  eexists _, _, _, _, _, _, _, _.
  repeat (split; [reflexivity|]).
  refute_Qeq.
Qed.

(** ** Truncation *)

(** Truncation is a function of the rational, not of the fraction that
    represents it. *)
Lemma truncate_Qeq (a b : Q) (dec : Z) :
  (a == b)%Q -> _truncate a dec = _truncate b dec.
Proof.
  intros H. unfold Qeq in H. unfold _truncate. do 2 f_equal.
  destruct a as [na da], b as [nb db]. simpl in *.
  rewrite <- (Z.quot_mul_cancel_r (na * 10 ^ dec) (Zpos da) (Zpos db))
    by lia.
  rewrite <- (Z.quot_mul_cancel_r (nb * 10 ^ dec) (Zpos db) (Zpos da))
    by lia.
  f_equal; [|lia].
  rewrite <- !Z.mul_assoc, (Z.mul_comm (10 ^ dec)), !Z.mul_assoc.
  rewrite H. lia.
Qed.

Example truncate_positive : _truncate 1.2399 2 = 1.23%Q.
Proof. reflexivity. Qed.

Example truncate_negative : _truncate (-1.2399) 2 = (-1.23)%Q.
Proof. reflexivity. Qed.

(** ** [Pair.budget] on exact numbers *)

(** The validation of [budget]: a list of another length and a negative
    number of places are refused. *)
Lemma budget_errors (self : Pair) (hedge_ratio : list Q) (dec : Z) :
  (length hedge_ratio <> 2%nat \/ (dec < 0)%Z) ->
  budget self hedge_ratio dec = inl ValueError.
Proof.
  intros H. unfold budget.
  destruct hedge_ratio as [|h0 [|h1 [|h2 rest]]]; try done.
  - destruct H as [H|H]; [simpl in H; lia|].
    destruct (Z.ltb_spec dec 0); [done|lia].
Qed.

(** ** The commission of an order on exact numbers *)

Lemma commission_nonzero (q : Q) :
  ~ (q == 0)%Q -> commission q = Qmax (Qabs q * 0.0035) 0.35.
Proof.
  intros H. unfold commission.
  destruct (Qeq_bool q 0) eqn:E; [|done].
  apply Qeq_bool_iff in E. contradiction.
Qed.

Lemma commission_zero (q : Q) : (q == 0)%Q -> commission q = 0%Q.
Proof.
  intros H. unfold commission. apply Qeq_bool_iff in H. by rewrite H.
Qed.

(** ** C10: the last date in [returns] *)

Lemma foldl_ext_in {A B : Type} (f g : A -> B -> A) (l : list B) :
  (forall a x, x ∈ l -> f a x = g a x) ->
  forall a, foldl f a l = foldl g a l.
Proof.
  induction l as [|x l IH]; intros Hfg a; simpl; [done|].
  rewrite Hfg by apply list_elem_of_here.
  apply IH. intros a' y Hy. apply Hfg. by apply list_elem_of_further.
Qed.

Lemma elem_of_range (lo hi i : nat) :
  i ∈ np.range lo hi <-> (lo <= i < hi)%nat.
Proof. unfold np.range. rewrite elem_of_seq. lia. Qed.

Lemma round_step_length (opt rounded : list (Q * Q)) (i : nat) :
  length (round_step opt rounded i) = length rounded.
Proof.
  unfold round_step. destruct (opt !! i) as [[a b]|]; [|done].
  apply length_insert.
Qed.

(** A row that no turn of the rounding loop visits keeps its value. *)
Lemma round_fold_untouched (opt : list (Q * Q)) (idx : list nat) (j : nat) :
  j ∉ idx ->
  forall rounded, foldl (round_step opt) rounded idx !! j = rounded !! j.
Proof.
  induction idx as [|i idx IH]; intros Hj rounded; simpl; [done|].
  apply not_elem_of_cons in Hj as [Hne Hj].
  rewrite IH by done. unfold round_step.
  destruct (opt !! i) as [[a b]|]; [|done].
  by apply list_lookup_insert_ne.
Qed.

Lemma rounded_positions_length (self : Strategy) :
  length (rounded_positions self) = length (positions self).
Proof.
  unfold rounded_positions.
  generalize (np.range (lookback self) (length (positions self) - 1)).
  intros idx.
  assert (H : forall rounded,
             length (foldl (round_step (positions self)) rounded idx)
             = length rounded).
  { induction idx as [|i idx IH]; intros rounded; simpl; [done|].
    rewrite IH. apply round_step_length. }
  rewrite H. unfold np.zeros. apply length_replicate.
Qed.

(** Rows before the lookback and the last row are never visited. *)
Lemma rounded_positions_zero_rows (self : Strategy) (j : nat) :
  (j < length (positions self))%nat ->
  (j < lookback self \/ j + 1 = length (positions self))%nat ->
  rounded_positions self !! j = Some (0%Q, 0%Q).
Proof.
  intros Hj Hcase. unfold rounded_positions.
  rewrite round_fold_untouched.
  - unfold np.zeros. by apply lookup_replicate.
  - rewrite elem_of_range. lia.
Qed.

(** The rounded positions are a function of the positions before the
    last date. *)
Lemma rounded_positions_last (p : Pair) (lb : nat) (pos : list (Q * Q))
    (v v' : Q * Q) :
  rounded_positions (mkStrategy p lb (pos ++ [v]))
  = rounded_positions (mkStrategy p lb (pos ++ [v'])).
Proof.
  unfold rounded_positions. simpl. rewrite !length_app. simpl.
  apply foldl_ext_in. intros rounded i Hi.
  apply elem_of_range in Hi. unfold round_step.
  rewrite !lookup_app_l by lia. done.
Qed.

(** The budget loop stops before the last order. *)
Lemma budget_loop_last (closed1 closed2 o1 o2 m1 m2 : list Q)
    (x1 x2 k1 k2 y1 y2 l1 l2 b : Q) :
  length o2 = length o1 -> length m1 = length o1 -> length m2 = length o1 ->
  budget_loop closed1 closed2 (o1 ++ [x1]) (o2 ++ [x2]) (m1 ++ [k1])
              (m2 ++ [k2]) b
  = budget_loop closed1 closed2 (o1 ++ [y1]) (o2 ++ [y2]) (m1 ++ [l1])
                (m2 ++ [l2]) b.
Proof.
  intros Ho2 Hm1 Hm2. unfold budget_loop. rewrite !length_app. simpl.
  apply foldl_ext_in. intros acc i Hi.
  apply elem_of_range in Hi. unfold budget_step, iloc.
  rewrite !lookup_app_l by lia. done.
Qed.

(** C10.  For every pair, lookback and positions array of n >= 1 rows:
    the rounded position of the last row is the zero vector, the budget
    loop gives the same budget whatever the last order and its commission
    are, and [returns] gives the same result (value or exception) whatever
    the last row of [positions()] is. *)
Theorem returns_ignores_last_position (p : Pair) (lb : nat)
    (pos : list (Q * Q)) (v v' : Q * Q) :
  rounded_positions (mkStrategy p lb (pos ++ [v])) !! length pos
  = Some (0%Q, 0%Q)
  /\ (forall (closed1 closed2 o1 o2 m1 m2 : list Q)
             (x1 x2 k1 k2 y1 y2 l1 l2 b : Q),
        length o2 = length o1 -> length m1 = length o1 ->
        length m2 = length o1 ->
        budget_loop closed1 closed2 (o1 ++ [x1]) (o2 ++ [x2]) (m1 ++ [k1])
                    (m2 ++ [k2]) b
        = budget_loop closed1 closed2 (o1 ++ [y1]) (o2 ++ [y2]) (m1 ++ [l1])
                      (m2 ++ [l2]) b)
  /\ returns (mkStrategy p lb (pos ++ [v]))
     = returns (mkStrategy p lb (pos ++ [v'])).
Proof.
  split; [|split].
  - apply rounded_positions_zero_rows; simpl; rewrite length_app; simpl; lia.
  - intros. by apply budget_loop_last.
  - unfold returns. rewrite (rounded_positions_last p lb pos v v'). done.
Qed.

Lemma returns_ignores_last_position_witness :
  budget_loop [1; 2]%Q [3; 4]%Q ([0] ++ [5])%Q ([0] ++ [6])%Q
              ([0] ++ [7])%Q ([0] ++ [8])%Q 10%Q
  = budget_loop [1; 2]%Q [3; 4]%Q ([0] ++ [0])%Q ([0] ++ [0])%Q
                ([0] ++ [0])%Q ([0] ++ [0])%Q 10%Q.
Proof.
  apply (returns_ignores_last_position fixtures.pair_ab 0 [] (0%Q, 0%Q)
           (0%Q, 0%Q)); reflexivity.
Defined.

(** ** C4: the realized return of a strategy that never trades *)

Lemma truncate_zero (dec : Z) : (_truncate 0 dec * inject_Z (10 ^ 3) == 0)%Q.
Proof.
  unfold _truncate. simpl. unfold Qdiv.
  rewrite Z.quot_0_l by lia. rewrite Qmult_0_l. apply Qmult_0_l.
Qed.

Lemma rounded_positions_all_zero (p : Pair) (lb n : nat) :
  Forall zero_row
         (rounded_positions (mkStrategy p lb (replicate n (0%Q, 0%Q)))).
Proof.
  unfold rounded_positions. simpl.
  generalize (np.range lb (length (replicate n (0%Q, 0%Q)) - 1)).
  intros idx.
  assert (H0 : Forall zero_row (np.zeros (length (replicate n (0%Q, 0%Q))))).
  { unfold np.zeros. apply Forall_replicate. by split. }
  revert H0. generalize (np.zeros (length (replicate n (0%Q, 0%Q)))).
  induction idx as [|i idx IH]; intros rounded Hr; simpl; [done|].
  apply IH. unfold round_step.
  destruct (replicate n (0%Q, 0%Q) !! i) as [[a b]|] eqn:E; [|done].
  apply lookup_replicate in E as [E _].
  assert (a = 0%Q /\ b = 0%Q) as [-> ->] by (split; congruence).
  simpl.
  apply Forall_insert; [done|]. split; apply truncate_zero.
Qed.

Lemma orders_all_zero (column : list Q) :
  Forall (fun x => (x == 0)%Q) column ->
  Forall (fun x => (x == 0)%Q) (orders column).
Proof.
  intros H. unfold orders. apply Forall_cons. split; [reflexivity|].
  unfold np.diff. apply Forall_lookup. intros i x Hx.
  apply lookup_zip_with_Some in Hx as (a & b & -> & Ha & Hb).
  rewrite Forall_lookup in H.
  rewrite (H _ _ Hb). rewrite lookup_tail in Ha. rewrite (H _ _ Ha).
  reflexivity.
Qed.

(** With no order on any date the budget loop leaves the budget as it
    is, provided the closes cover the dates it visits. *)
Lemma budget_loop_no_orders (closed1 closed2 o1 o2 : list Q) (b : Q) :
  Forall (fun x => (x == 0)%Q) o1 ->
  Forall (fun x => (x == 0)%Q) o2 ->
  length o2 = length o1 ->
  (length o1 - 1 <= length closed1)%nat ->
  (length o1 - 1 <= length closed2)%nat ->
  exists b', budget_loop closed1 closed2 o1 o2 (commission <$> o1)
                         (commission <$> o2) b = inr b'
             /\ (b' == b)%Q.
Proof.
  intros Ho1 Ho2 Hlen Hc1 Hc2. unfold budget_loop.
  assert (Hidx : forall i, i ∈ np.range 0 (length o1 - 1) ->
                   (i < length o1 - 1)%nat).
  { intros i Hi. apply elem_of_range in Hi. lia. }
  revert Hidx. generalize (np.range 0 (length o1 - 1)). intros idx Hidx.
  assert (Hstart : exists b0, ret b = inr b0 /\ (b0 == b)%Q).
  { exists b. split; [done|reflexivity]. }
  revert Hstart. generalize (@ret Q b).
  induction idx as [|i idx IH]; intros acc (b0 & -> & Hb0); simpl.
  - by exists b0.
  - apply IH.
    + intros j Hj. apply Hidx. by apply list_elem_of_further.
    + assert (Hi : (i < length o1 - 1)%nat)
        by (apply Hidx, list_elem_of_here).
      destruct (lookup_lt_is_Some_2 o1 i) as [q1 Hq1]; [lia|].
      destruct (lookup_lt_is_Some_2 o2 i) as [q2 Hq2]; [lia|].
      destruct (lookup_lt_is_Some_2 closed1 i) as [p1 Hp1]; [lia|].
      destruct (lookup_lt_is_Some_2 closed2 i) as [p2 Hp2]; [lia|].
      unfold budget_step, iloc. simpl.
      rewrite !list_lookup_fmap, Hq1, Hq2, Hp1, Hp2. simpl.
      eexists. split; [reflexivity|].
      rewrite Forall_lookup in Ho1. rewrite Forall_lookup in Ho2.
      pose proof (Ho1 _ _ Hq1) as Hz1. pose proof (Ho2 _ _ Hq2) as Hz2.
      rewrite (commission_zero q1 Hz1), (commission_zero q2 Hz2).
      rewrite Hz1, Hz2, Hb0. ring.
Qed.

(** What [returns] gives for positions that are zero on every date: the
    budget starts as the truncated price of 1000 units of each instrument
    and is divided by the price that was not truncated. *)
Lemma returns_zero_positions (p : Pair) (lb : nat) (c1 c2 : Q) :
  aligned p ->
  closed (equity1 p) !! 0%nat = Some c1 ->
  closed (equity2 p) !! 0%nat = Some c2 ->
  let n := length (closed (equity1 p)) in
  let init_budget := (1000 * (c1 + c2))%Q in
  exists r, returns (mkStrategy p lb (replicate n (0%Q, 0%Q))) = inr r
            /\ (r == _truncate init_budget 2 / init_budget - 1)%Q.
Proof.
  intros Hal Hc1 Hc2 n init_budget.
  set (s := mkStrategy p lb (replicate n (0%Q, 0%Q))).
  unfold returns. cbv zeta. replace (pair s) with p by done.
  unfold iloc at 1 2. rewrite Hc1, Hc2. unfold bind at 1 2.
  pose proof (rounded_positions_all_zero p lb n) as Hz. fold s in Hz.
  pose proof (rounded_positions_length s) as Hlen. simpl in Hlen.
  rewrite length_replicate in Hlen.
  assert (Hz1 : Forall (fun x => (x == 0)%Q) (orders ((rounded_positions s).*1))).
  { apply orders_all_zero. apply Forall_fmap.
    eapply Forall_impl; [exact Hz|]. by intros r [H _]. }
  assert (Hz2 : Forall (fun x => (x == 0)%Q) (orders ((rounded_positions s).*2))).
  { apply orders_all_zero. apply Forall_fmap.
    eapply Forall_impl; [exact Hz|]. by intros r [_ H]. }
  assert (Hlo : forall col : list Q, length col = n ->
                  length (orders col) = Nat.max n 1).
  { intros col Hcol. unfold orders, np.diff. simpl.
    rewrite length_zip_with. destruct col; simpl in *; lia. }
  assert (Hn : (1 <= n)%nat).
  { apply lookup_lt_Some in Hc1. unfold n. lia. }
  destruct (budget_loop_no_orders (closed (equity1 p)) (closed (equity2 p))
              (orders ((rounded_positions s).*1))
              (orders ((rounded_positions s).*2))
              (_truncate init_budget 2))
    as (b' & Hloop & Hb'); try done.
  - rewrite !Hlo; [done| |]; by rewrite length_fmap.
  - rewrite Hlo by (by rewrite length_fmap). fold n. lia.
  - rewrite Hlo by (by rewrite length_fmap). unfold aligned in Hal.
    rewrite <- Hal. fold n. lia.
  - unfold ret at 1 2. cbv beta iota. fold init_budget.
    rewrite Hloop. unfold bind, ret.
    eexists. split; [reflexivity|]. by rewrite Hb'.
Qed.

(** C4, on the code: closes 10.000001 and 20.0 on the first date (then
    11.0 and 21.0), positions zero on both dates.  The price of 1000 units
    of each is 30000.001, the budget starts at 30000.00, nothing is
    traded, and [returns] is 30000.00 / 30000.001 - 1 = -1/30000001, not
    0. *)
Theorem returns_zero_positions_not_zero :
  let p := mkPair (mkEquity "A" 0 1 [10.000001; 11.0]%Q)
                  (mkEquity "B" 0 1 [20.0; 21.0]%Q) 0 1 None None in
  exists r, returns (mkStrategy p 0 [(0, 0); (0, 0)]%Q) = inr r
            /\ (_truncate (1000 * (10.000001 + 20.0)) 2 == 30000)%Q
            /\ (r == 30000 / 30000.001 - 1)%Q
            /\ (r == -1 # 30000001)%Q
            /\ ~ (r == 0)%Q.
Proof.
  eexists. split; [vm_compute; reflexivity|].
  split; [reflexivity|]. split; [reflexivity|]. split; [reflexivity|].
  refute_Qeq.
Qed.

(** ** C3: cumulative returns *)

Lemma product_from_Some (a : Q) (rs : list Q) :
  product_from (Some a) rs
  = Some (foldl (fun acc x => (acc * (1 + x))%Q) a rs).
Proof.
  revert a. induction rs as [|x rs IH]; intros a; simpl; [done|].
  apply IH.
Qed.

Lemma product_from_None (rs : list Q) :
  product_from None rs = running_product rs.
Proof.
  destruct rs as [|x rs]; simpl; [done|]. apply product_from_Some.
Qed.

Lemma cum_returns_of_length (r : list (option Q)) :
  length (cum_returns_of r) = length r.
Proof.
  unfold cum_returns_of, pd.ffill, pd.cumprod.
  generalize (@None Q) at 1. generalize (@None Q).
  induction r as [|[x|] r IH]; intros acc prev; simpl; [done| |];
    by rewrite IH.
Qed.

(** The two scans of [cum_returns_of] in step: the fill value is always
    the latest cumulative value. *)
Lemma cum_returns_scan (r : list (option Q)) : forall (acc : option Q) (i : nat),
  (i < length r)%nat ->
  pd.ffill_from (option_map (fun c => (c - 1)%Q) acc)
    (option_map (fun c => (c - 1)%Q)
       <$> pd.cumprod_from acc (option_map (fun x => (1 + x)%Q) <$> r)) !! i
  = Some (option_map (fun c => (c - 1)%Q)
            (product_from acc (available (take (S i) r)))).
Proof.
  induction r as [|[x|] r IH]; intros acc i Hi; simpl in Hi; [lia| |].
  - destruct i as [|i].
    + simpl. by destruct acc.
    + change (take (S (S i)) (Some x :: r)) with (Some x :: take (S i) r).
      unfold available. simpl. fold (available (take (S i) r)).
      rewrite <- IH by lia. by destruct acc.
  - destruct i as [|i].
    + simpl. done.
    + change (take (S (S i)) (None :: r)) with (None :: take (S i) r).
      unfold available. simpl. fold (available (take (S i) r)).
      rewrite <- IH by lia. done.
Qed.

Lemma available_nil_iff (r : list (option Q)) :
  available r = [] <-> forall j x, r !! j = Some x -> x = None.
Proof.
  unfold available. induction r as [|[x|] r IH]; simpl.
  - split; [intros _ j x Hx; by rewrite lookup_nil in Hx|done].
  - split; [done|]. intros H. by specialize (H 0%nat (Some x) eq_refl).
  - rewrite IH. split.
    + intros H [|j] x Hx; simpl in Hx; [congruence|eauto].
    + intros H j x Hx. by apply (H (S j)).
Qed.

(** The cumulative return at every index. *)
Lemma cum_returns_of_lookup (r : list (option Q)) (i : nat) :
  (i < length r)%nat ->
  cum_returns_of r !! i
  = Some (option_map (fun c => (c - 1)%Q)
            (running_product (available (take (S i) r)))).
Proof.
  intros Hi. unfold cum_returns_of, pd.ffill, pd.cumprod.
  rewrite <- product_from_None. apply (cum_returns_scan r None i Hi).
Qed.

(** Before the first available return there is nothing to fill with. *)
Lemma cum_returns_of_leading (r : list (option Q)) (i : nat) :
  (i < length r)%nat ->
  (forall j, (j <= i)%nat -> r !! j = Some None) ->
  cum_returns_of r !! i = Some None.
Proof.
  intros Hi Hnone. rewrite cum_returns_of_lookup by done.
  assert (Hs : available (take (S i) r) = []).
  { apply available_nil_iff. intros j x Hx.
    apply lookup_take_Some in Hx as [Hx Hj].
    rewrite Hnone in Hx by lia. congruence. }
  by rewrite Hs.
Qed.

(** From the first available return on, every entry is available. *)
Lemma cum_returns_of_tail (r : list (option Q)) (i k : nat) (x : Q) :
  (i < length r)%nat -> (k <= i)%nat -> r !! k = Some (Some x) ->
  exists c, cum_returns_of r !! i = Some (Some c).
Proof.
  intros Hi Hk Hx. rewrite cum_returns_of_lookup by done.
  destruct (running_product (available (take (S i) r))) as [c|] eqn:E.
  - by exists (c - 1)%Q.
  - exfalso. unfold running_product in E.
    destruct (available (take (S i) r)) as [|y ys] eqn:Es; [|done].
    apply available_nil_iff with (j := k) (x := Some x) in Es; [done|].
    apply lookup_take_Some. split; [done|lia].
Qed.

(** C3, as amended.  For every return sequence r and every index i, the
    cumulative return at i is "not available" as long as no entry of r up
    to i is available (forward fill has no value to carry), and from the
    first available entry on it is the running product of (1 + r) over the
    available entries up to i, minus 1: an entry that is not available
    repeats the latest cumulative value.  [cum_returns] raises only when
    [th_returns] does. *)
Theorem cum_returns_running_product (r : list (option Q)) (i : nat) :
  (i < length r)%nat ->
  let seen := available (take (S i) r) in
  cum_returns_of r !! i
  = Some (option_map (fun c => (c - 1)%Q) (running_product seen))
  /\ ((forall j, (j <= i)%nat -> r !! j = Some None) ->
      cum_returns_of r !! i = Some None)
  /\ (forall k x, (k <= i)%nat -> r !! k = Some (Some x) ->
      exists c, cum_returns_of r !! i = Some (Some c))
  /\ length (cum_returns_of r) = length r
  /\ (forall self, th_returns self = inr r ->
        cum_returns self = inr (cum_returns_of r)).
Proof.
  intros Hi seen. split; [|split; [|split; [|split]]].
  - by apply cum_returns_of_lookup.
  - by apply cum_returns_of_leading.
  - intros k x. by apply cum_returns_of_tail.
  - apply cum_returns_of_length.
  - intros self Hr. unfold cum_returns. by rewrite Hr.
Qed.

Lemma cum_returns_running_product_witness :
  cum_returns_of [None; Some 0.1; None; Some 0.2]%Q !! 2%nat
  = Some (Some ((1 + 0.1) - 1)%Q).
Proof.
  apply (cum_returns_running_product [None; Some 0.1; None; Some 0.2]%Q 2).
  simpl. lia.
Defined.

(** The first theoretical return is never available. *)
Lemma th_returns_first (self : Strategy) (r : list (option Q)) :
  th_returns self = inr r -> r = [] \/ r !! 0%nat = Some None.
Proof.
  unfold th_returns.
  destruct (np.broadcast_rows _ _) as [e|[|o os]]; simpl;
    [discriminate| |]; intros H; injection H as <-; [by left|].
  destruct (prices (pair self)) as [|c cs]; [by left|].
  right. reflexivity.
Qed.

(** So the first cumulative return is never available either, whatever
    follows it. *)
Lemma cum_returns_first (self : Strategy) (c : list (option Q)) :
  cum_returns self = inr c -> c = [] \/ c !! 0%nat = Some None.
Proof.
  unfold cum_returns. destruct (th_returns self) as [e|r] eqn:E; [discriminate|].
  simpl. intros H. injection H as <-.
  destruct (th_returns_first self r E) as [->|H0]; [by left|].
  right.
  assert (Hlen : (0 < length r)%nat) by (by apply lookup_lt_Some in H0).
  apply cum_returns_of_leading; [done|].
  intros j Hj. by replace j with 0%nat by lia.
Qed.

(** C3, as the specification states it, fails: the theoretical returns of
    [strategy_ab] are [NaN, 1/2, 0, 1/5]; the first available cumulative
    value is 1/2, at index 1, and the leading entry at index 0 stays "not
    available" instead of taking that value. *)
Lemma cum_returns_leading_counterexample :
  exists r c : list (option Q),
    th_returns fixtures.strategy_ab = inr r
    /\ cum_returns fixtures.strategy_ab = inr c
    /\ ~ (forall (i k : nat) (first : Q),
            (i < k)%nat ->
            (forall j, (j < k)%nat -> r !! j = Some None) ->
            c !! k = Some (Some first) ->
            c !! i = Some (Some first)).
Proof.
  eexists _, _. split; [vm_compute; reflexivity|].
  split; [vm_compute; reflexivity|].
  intros H. specialize (H 0%nat 1%nat (1 # 2)%Q).
  assert (Hbad : @lookup nat (option Q) (list (option Q)) _ 0%nat
                   [None; Some (1 # 2); Some (30 # 60);
                    Some (288000 # 360000)]%Q
                 = Some (Some (1 # 2)%Q)).
  { apply H; [lia| |reflexivity].
    intros j Hj. replace j with 0%nat by lia. reflexivity. }
  discriminate Hbad.
Qed.

(** * Further properties of the code *)

(** ** [Pair.hedge] *)

(** X1.  [hedge] raises exactly when the lookback is not positive or the
    method is not the string "OLS" (in capitals), and what it raises is a
    ValueError; otherwise it returns the object with the hedge ratios of
    [_hedge_ols] and every other attribute as it was. *)
Theorem hedge_outcome ols (self : Pair) (method : string) (L : Z) :
  (hedge ols self method L = inl ValueError
   <-> (L <= 0)%Z \/ method <> "OLS"%string)
  /\ (forall e, hedge ols self method L = inl e -> e = ValueError)
  /\ (forall s, hedge ols self method L = inr s ->
        (0 < L)%Z /\ method = "OLS"%string
        /\ hedge_ratios s = Some (_hedge_ols ols self (Z.to_nat L))
        /\ equity1 s = equity1 self /\ equity2 s = equity2 self
        /\ start_date s = start_date self /\ end_date s = end_date self
        /\ _price_spread s = _price_spread self)
  /\ hedge ols self "ols" L = inl ValueError.
Proof.
  unfold hedge, raise, ret.
  destruct (Z.leb_spec L 0) as [HL|HL].
  { split; [|split; [|split]].
    - split; [by left|done].
    - by intros e [= <-].
    - intros s Hs. discriminate Hs.
    - reflexivity. }
  destruct (String.eqb_spec method "OLS") as [Hm|Hm].
  - split; [|split; [|split]].
    + split; [discriminate|intros [H|H]; [lia|done]].
    + intros e He. discriminate He.
    + intros s [= <-]. simpl. by repeat split.
    + reflexivity.
  - split; [|split; [|split]].
    + split; [by right|done].
    + by intros e [= <-].
    + intros s Hs. discriminate Hs.
    + reflexivity.
Qed.

(** X2.  For a pair on one calendar and L > 0 the hedge-ratio array has
    one row per date, every row is the zero vector or starts with 1, and
    the row of the last date is always the zero vector: the loop stops one
    turn before it could write it. *)
Theorem hedge_ols_shape ols (self : Pair) (L : nat) :
  aligned self ->
  (0 < L)%nat ->
  let n := length (closed (equity1 self)) in
  length (_hedge_ols ols self L) = n
  /\ (forall i row, _hedge_ols ols self L !! i = Some row ->
        row = (0%Q, 0%Q) \/ fst row = 1%Q)
  /\ ((0 < n)%nat -> _hedge_ols ols self L !! (n - 1)%nat = Some (0%Q, 0%Q)).
Proof.
  intros Hal HL n.
  pose proof (prices_length self Hal) as Hn. fold n in Hn.
  split; [|split].
  - by rewrite hedge_ols_length.
  - intros i row. rewrite hedge_ols_lookup by done. case_decide.
    + intros [= <-]. by right.
    + unfold np.zeros. intros [-> _]%lookup_replicate. by left.
  - intros Hpos. rewrite hedge_ols_lookup by done. rewrite Hn.
    rewrite decide_False by lia.
    unfold np.zeros. apply lookup_replicate. split; [done|lia].
Qed.

Lemma hedge_ols_shape_witness :
  _hedge_ols ols_slope fixtures.pair_ab 2 !! 3%nat = Some (0%Q, 0%Q).
Proof.
  apply (hedge_ols_shape ols_slope fixtures.pair_ab 2); [reflexivity|lia|].
  simpl. lia.
Defined.

(** The spread of the zero hedge ratios is zero on every date. *)
Lemma spread_of_zeros (n : nat) (df : list (Q * Q)) (i : nat) (v : Q) :
  spread_of (np.zeros n) df !! i = Some v -> (v == 0)%Q.
Proof.
  unfold spread_of. intros H.
  apply lookup_zip_with_Some in H as (h & c & -> & Hh & _).
  unfold np.zeros in Hh. apply lookup_replicate in Hh as [-> _].
  simpl. ring.
Qed.

(** X3.  On a series with at most L rows no regression is run: [hedge]
    succeeds, every hedge ratio is the zero vector, and the spread read
    after it (none being stored) is 0 on every date. *)
Theorem hedge_short_series ols (self : Pair) (L : Z) :
  aligned self ->
  (0 < L)%Z ->
  (Z.of_nat (length (prices self)) <= L)%Z ->
  _price_spread self = None ->
  exists s sp s',
    hedge ols self "OLS" L = inr s
    /\ hedge_ratios s = Some (np.zeros (length (prices self)))
    /\ price_spread s = inr (sp, s')
    /\ length sp = length (prices self)
    /\ forall i v, sp !! i = Some v -> (v == 0)%Q.
Proof.
  intros _ HL Hn Hsp.
  assert (Hrows : _hedge_ols ols self (Z.to_nat L)
                  = np.zeros (length (prices self))).
  { unfold _hedge_ols, np.range.
    replace (length (prices self) - Z.to_nat L)%nat with 0%nat by lia.
    done. }
  unfold hedge. destruct (Z.leb_spec L 0) as [|_]; [lia|]. simpl.
  eexists _, _, _. split; [reflexivity|].
  unfold price_spread. simpl. rewrite Hsp, Hrows.
  split; [done|]. split; [reflexivity|]. split.
  - unfold spread_of, np.zeros, prices. simpl.
    rewrite length_zip_with, length_replicate, length_zip. lia.
  - intros i v. apply spread_of_zeros.
Qed.

Lemma hedge_short_series_witness :
  exists s sp s',
    hedge ols_slope fixtures.pair_ab "OLS" 4 = inr s
    /\ hedge_ratios s = Some (np.zeros 4)
    /\ price_spread s = inr (sp, s')
    /\ length sp = 4%nat
    /\ forall i v, sp !! i = Some v -> (v == 0)%Q.
Proof.
  apply (hedge_short_series ols_slope fixtures.pair_ab 4);
    [reflexivity|lia|simpl; lia|reflexivity].
Defined.

(** X4.  The last estimate wins: after a successful [hedge], a second
    [hedge] gives what it would have given without the first. *)
Theorem hedge_overwrites ols (self s1 : Pair) (m1 m2 : string) (L1 L2 : Z) :
  hedge ols self m1 L1 = inr s1 ->
  hedge ols s1 m2 L2 = hedge ols self m2 L2.
Proof.
  intros H1. unfold hedge in *.
  destruct (L1 <=? 0)%Z; [discriminate H1|].
  destruct (String.eqb m1 "OLS"); [|discriminate H1].
  injection H1 as <-. simpl.
  destruct (L2 <=? 0)%Z; [done|].
  destruct (String.eqb m2 "OLS"); done.
Qed.

Lemma hedge_overwrites_witness :
  exists s1, hedge ols_slope fixtures.pair_ab "OLS" 2 = inr s1
             /\ hedge ols_slope s1 "OLS" 3
                = hedge ols_slope fixtures.pair_ab "OLS" 3.
Proof.
  eexists. split; [reflexivity|].
  apply (hedge_overwrites ols_slope fixtures.pair_ab _ "OLS" "OLS" 2 3).
  reflexivity.
Defined.

(** ** [Pair.price_spread] *)

(** X5.  A read of the spread that succeeds leaves an object on which
    every further read returns the same list and changes nothing. *)
Theorem price_spread_read_again (self s' : Pair) (sp : list Q) :
  price_spread self = inr (sp, s') ->
  price_spread s' = inr (sp, s')
  /\ _price_spread s' = Some sp
  /\ hedge_ratios s' = hedge_ratios self.
Proof.
  unfold price_spread.
  destruct (hedge_ratios self) as [hr|] eqn:Ehr; [|discriminate].
  destruct (_price_spread self) as [cached|] eqn:Esp; intros [= <- <-].
  - by rewrite Ehr, Esp.
  - done.
Qed.

Lemma price_spread_read_again_witness :
  exists s1 sp s2,
    hedge ols_slope fixtures.pair_ab "OLS" 2 = inr s1
    /\ price_spread s1 = inr (sp, s2)
    /\ price_spread s2 = inr (sp, s2).
Proof.
  pose (hr := _hedge_ols ols_slope fixtures.pair_ab 2).
  pose (s1 := mkPair fixtures.eq_a fixtures.eq_b 0 3 (Some hr) None).
  pose (sp := spread_of hr (prices s1)).
  pose (s2 := mkPair fixtures.eq_a fixtures.eq_b 0 3 (Some hr) (Some sp)).
  assert (H2 : price_spread s1 = inr (sp, s2)) by reflexivity.
  exists s1, sp, s2. split; [reflexivity|]. split; [exact H2|].
  exact (proj1 (price_spread_read_again s1 s2 sp H2)).
Defined.

Lemma prices_lookup (self : Pair) (i : nat) (c1 c2 : Q) :
  closed (equity1 self) !! i = Some c1 ->
  closed (equity2 self) !! i = Some c2 ->
  prices self !! i = Some (c1, c2).
Proof.
  intros H1 H2. unfold prices. apply lookup_zip_with_Some. eauto.
Qed.

(** X6.  The first read after an estimate on a pair that has no spread
    stored: one value per date; on date i-1, for L <= i < n, it is
    close1 - β close2 with the β of the window [i-L, i); on the dates
    before L-1 and on the last date it is 0. *)
Theorem spread_after_first_estimate ols (self : Pair) (L : Z) :
  aligned self ->
  (0 < L)%Z ->
  _price_spread self = None ->
  let n := length (closed (equity1 self)) in
  exists s sp s',
    hedge ols self "OLS" L = inr s
    /\ price_spread s = inr (sp, s')
    /\ length sp = n
    /\ (forall i c1 c2,
          (Z.to_nat L <= i < n)%nat ->
          closed (equity1 self) !! (i - 1)%nat = Some c1 ->
          closed (equity2 self) !! (i - 1)%nat = Some c2 ->
          exists v, sp !! (i - 1)%nat = Some v
                    /\ (v == c1 - ols (np.slice (i - Z.to_nat L) i
                                                (prices self)) * c2)%Q)
    /\ (forall j v, sp !! j = Some v ->
          (j + 1 < Z.to_nat L \/ j + 1 = n)%nat -> (v == 0)%Q).
Proof.
  intros Hal HL Hsp n.
  pose proof (prices_length self Hal) as Hn. fold n in Hn.
  unfold hedge. destruct (Z.leb_spec L 0) as [|_]; [lia|]. simpl.
  eexists _, _, _. split; [reflexivity|].
  unfold price_spread. simpl. rewrite Hsp.
  split; [reflexivity|].
  change (prices (mkPair _ _ _ _ _ _)) with (prices self).
  assert (HLn : (0 < Z.to_nat L)%nat) by lia.
  split; [|split].
  - unfold spread_of. rewrite length_zip_with, hedge_ols_length. lia.
  - intros i c1 c2 Hi Hc1 Hc2. eexists. split.
    + apply spread_of_lookup; [|by apply prices_lookup].
      rewrite hedge_ols_lookup by done.
      replace (i - 1 + 1)%nat with i by lia.
      rewrite decide_True by lia. reflexivity.
    + simpl. ring.
  - intros j v Hv Hj. unfold spread_of in Hv.
    apply lookup_zip_with_Some in Hv as (h & c & -> & Hh & _).
    rewrite hedge_ols_lookup in Hh by done.
    rewrite decide_False in Hh by lia.
    unfold np.zeros in Hh. apply lookup_replicate in Hh as [-> _].
    simpl. ring.
Qed.

Lemma spread_after_first_estimate_witness :
  exists s sp s',
    hedge ols_slope fixtures.pair_ab "OLS" 2 = inr s
    /\ price_spread s = inr (sp, s')
    /\ length sp = 4%nat.
Proof.
  destruct (spread_after_first_estimate ols_slope fixtures.pair_ab 2)
    as (s & sp & s' & H1 & H2 & H3 & _); [reflexivity|lia|reflexivity|].
  exists s, sp, s'. by repeat split.
Defined.

(** ** [Pair.plot_price_spread] and [Pair.plot_closed] *)

(** X7.  [plot_price_spread] tests for an attribute [_hedge_ratios], which
    no method sets: in every state of the object it raises, also after a
    successful [hedge], when [price_spread] itself returns the spread. *)
Theorem plot_price_spread_always_raises ols (self : Pair) :
  plot_price_spread self = inl Exception
  /\ (forall method L s, hedge ols self method L = inr s ->
        plot_price_spread s = inl Exception
        /\ exists read, price_spread s = inr read).
Proof.
  assert (Hraise : forall p, plot_price_spread p = inl Exception).
  { intros p. unfold plot_price_spread, hasattr, attrs.
    by destruct (hedge_ratios p), (_price_spread p). }
  split; [apply Hraise|].
  intros method L s Hs. split; [apply Hraise|].
  apply hedge_keeps_cached_spread in Hs as [_ Hhr].
  unfold price_spread. rewrite Hhr.
  destruct (_price_spread s); eauto.
Qed.

Lemma Pair_init_dates (e1 e2 : Equity) (p : Pair) :
  Pair_init e1 e2 = inr p -> (start_date p < end_date p)%Z.
Proof.
  unfold Pair_init.
  set (s := if (eq_start_date e1 >=? _)%Z then _ else _).
  set (e := if (eq_end_date e1 <=? _)%Z then _ else _).
  destruct (Z.leb_spec e s); [discriminate|].
  intros [= <-]. simpl. lia.
Qed.

(** X8.  [plot_closed] accepts a date range exactly when it is not empty
    and lies within the range of the pair, and raises a ValueError
    otherwise; called without dates on a pair that [Pair_init] returned,
    it draws the whole range of the pair. *)
Theorem plot_closed_range_outcome (self : Pair) (start_arg end_arg : option Z) :
  let first := default (start_date self) start_arg in
  let final := default (end_date self) end_arg in
  (plot_closed_range self start_arg end_arg = inr (first, final)
   <-> (start_date self <= first < final)%Z /\ (final <= end_date self)%Z)
  /\ (plot_closed_range self start_arg end_arg = inl ValueError
      <-> ~ ((start_date self <= first < final)%Z
             /\ (final <= end_date self)%Z))
  /\ (forall e1 e2, Pair_init e1 e2 = inr self ->
        plot_closed_range self None None
        = inr (start_date self, end_date self)).
Proof.
  intros first final.
  assert (Hcases :
    plot_closed_range self start_arg end_arg
    = if decide ((start_date self <= first < final)%Z
                 /\ (final <= end_date self)%Z)
      then inr (first, final) else inl ValueError).
  { unfold plot_closed_range.
    replace (match start_arg with Some d => d | None => start_date self end)
      with first by (by destruct start_arg).
    replace (match end_arg with Some d => d | None => end_date self end)
      with final by (by destruct end_arg).
    destruct (Z.leb_spec final first), (Z.ltb_spec first (start_date self)),
      (Z.gtb_spec final (end_date self)); case_decide; try done; lia. }
  split; [|split].
  - rewrite Hcases. case_decide; split; try done.
  - rewrite Hcases. case_decide; split; try done.
  - intros e1 e2 Hinit. apply Pair_init_dates in Hinit.
    unfold plot_closed_range.
    destruct (Z.leb_spec (end_date self) (start_date self)) as [Hle|_];
      [lia|].
    rewrite Z.ltb_irrefl.
    destruct (Z.gtb_spec (end_date self) (end_date self)) as [Hgt|_];
      [lia|done].
Qed.

(** ** [Pair.budget] *)

Lemma truncate_opp (x : Q) (dec : Z) :
  (_truncate (- x) dec == - _truncate x dec)%Q.
Proof.
  unfold _truncate. destruct x as [n d]. simpl.
  rewrite Z.mul_opp_l, Z.quot_opp_l by lia.
  change (inject_Z (- (n * 10 ^ dec ÷ Z.pos d)))
    with (- inject_Z (n * 10 ^ dec ÷ Z.pos d))%Q.
  unfold Qdiv. ring.
Qed.




(** Settles an equivalence between an outcome that is known and the
    conditions on the arguments. *)
Ltac outcome_cases :=
  solve [ repeat split; intros;
          repeat match goal with H : ex _ |- _ => destruct H end;
          intuition (eauto; try congruence; try (simpl in *; lia)) ].

(** X9.  The outcome of [budget] by its arguments: a ValueError exactly
    when the list does not have two entries or [dec] is negative, else an
    IndexError exactly when one of the two series is empty, else the
    budget. *)
Theorem budget_outcome (self : Pair) (hedge_ratio : list Q) (dec : Z) :
  (budget self hedge_ratio dec = inl ValueError
   <-> length hedge_ratio <> 2%nat \/ (dec < 0)%Z)
  /\ (budget self hedge_ratio dec = inl IndexError
      <-> length hedge_ratio = 2%nat /\ (0 <= dec)%Z
          /\ (closed (equity1 self) = [] \/ closed (equity2 self) = []))
  /\ ((exists b, budget self hedge_ratio dec = inr b)
      <-> length hedge_ratio = 2%nat /\ (0 <= dec)%Z
          /\ closed (equity1 self) <> [] /\ closed (equity2 self) <> []).
Proof.
  assert (Hlast : forall l : list Q,
            (l = [] /\ last l = None) \/ (l <> [] /\ exists x, last l = Some x)).
  { intros l. destruct (last l) as [x|] eqn:E.
    - right. split; [by intros ->|by exists x].
    - left. by apply last_None in E. }
  unfold budget, iloc_last, raise, ret.
  destruct hedge_ratio as [|h0 [|h1 [|h2 rest]]]; simpl;
    [outcome_cases|outcome_cases| |outcome_cases].
  destruct (Z.ltb_spec dec 0) as [Hneg|Hdec]; [outcome_cases|].
  destruct (Hlast (closed (equity1 self))) as [[E1 ->]|[E1 [p1 ->]]];
    destruct (Hlast (closed (equity2 self))) as [[E2 ->]|[E2 [p2 ->]]];
    simpl; outcome_cases.
Qed.

(** X10.  [budget] does not see the signs of the hedge ratios: with a
    ratio negated it gives the same value, or raises the same
    exception. *)
Theorem budget_ignores_signs (self : Pair) (h0 h1 : Q) (dec : Z) :
  budget self [(- h0)%Q; h1] dec = budget self [h0; h1] dec
  /\ budget self [h0; (- h1)%Q] dec = budget self [h0; h1] dec.
Proof.
  unfold budget. destruct (dec <? 0)%Z; [done|].
  destruct (iloc_last (closed (equity1 self))) as [e|p1]; [done|].
  destruct (iloc_last (closed (equity2 self))) as [e|p2]; [done|].
  unfold bind, ret.
  split; f_equal; apply truncate_Qeq;
    by rewrite truncate_opp, Qabs_opp.
Qed.



(** ** [returns] of [_returns.py] *)

Lemma iloc_outcome {A : Type} (l : list A) (i : nat) :
  ((i < length l)%nat -> exists x, iloc l i = inr x)
  /\ ((length l <= i)%nat -> iloc l i = inl IndexError).
Proof.
  unfold iloc. split; intros H.
  - destruct (lookup_lt_is_Some_2 l i H) as [x ->]. by exists x.
  - by rewrite (proj2 (lookup_ge_None l i) H).
Qed.

Lemma budget_step_outcome (c1 c2 o1 o2 m1 m2 : list Q) (b : Q) (i : nat) :
  (served c1 c2 o1 o2 m1 m2 i ->
   exists b', budget_step c1 c2 o1 o2 m1 m2 (inr b) i = inr b')
  /\ (~ served c1 c2 o1 o2 m1 m2 i ->
      budget_step c1 c2 o1 o2 m1 m2 (inr b) i = inl IndexError).
Proof.
  unfold served, budget_step. simpl.
  destruct (iloc_outcome o1 i) as [Ho1 Ho1'].
  destruct (iloc_outcome c1 i) as [Hc1 Hc1'].
  destruct (iloc_outcome m1 i) as [Hm1 Hm1'].
  destruct (iloc_outcome o2 i) as [Ho2 Ho2'].
  destruct (iloc_outcome c2 i) as [Hc2 Hc2'].
  destruct (iloc_outcome m2 i) as [Hm2 Hm2'].
  split.
  - intros (H1 & H2 & H3 & H4 & H5 & H6).
    destruct (Ho1 H1) as [? ->], (Hc1 H2) as [? ->], (Hm1 H3) as [? ->],
      (Ho2 H4) as [? ->], (Hc2 H5) as [? ->], (Hm2 H6) as [? ->].
    simpl. eauto.
  - intros Hno.
    destruct (le_lt_dec (length o1) i) as [H1|H1];
      [by rewrite (Ho1' H1)|destruct (Ho1 H1) as [? ->]; simpl].
    destruct (le_lt_dec (length c1) i) as [H2|H2];
      [by rewrite (Hc1' H2)|destruct (Hc1 H2) as [? ->]; simpl].
    destruct (le_lt_dec (length m1) i) as [H3|H3];
      [by rewrite (Hm1' H3)|destruct (Hm1 H3) as [? ->]; simpl].
    destruct (le_lt_dec (length o2) i) as [H4|H4];
      [by rewrite (Ho2' H4)|destruct (Ho2 H4) as [? ->]; simpl].
    destruct (le_lt_dec (length c2) i) as [H5|H5];
      [by rewrite (Hc2' H5)|destruct (Hc2 H5) as [? ->]; simpl].
    destruct (le_lt_dec (length m2) i) as [H6|H6];
      [by rewrite (Hm2' H6)|].
    exfalso. apply Hno. repeat split; done.
Qed.

Lemma foldl_step {A B : Type} (f : A -> B -> A) (a : A) (x : B)
    (l : list B) :
  foldl f a (x :: l) = foldl f (f a x) l.
Proof. reflexivity. Qed.

Lemma budget_fold_raised (c1 c2 o1 o2 m1 m2 : list Q) (e : error)
    (idx : list nat) :
  foldl (budget_step c1 c2 o1 o2 m1 m2) (inl e) idx = inl e.
Proof. induction idx as [|i idx IH]; simpl; [done|exact IH]. Qed.

Lemma budget_fold_outcome (c1 c2 o1 o2 m1 m2 : list Q) (idx : list nat) :
  forall b,
    (Forall (served c1 c2 o1 o2 m1 m2) idx ->
     exists b', foldl (budget_step c1 c2 o1 o2 m1 m2) (inr b) idx = inr b')
    /\ (~ Forall (served c1 c2 o1 o2 m1 m2) idx ->
        foldl (budget_step c1 c2 o1 o2 m1 m2) (inr b) idx = inl IndexError).
Proof.
  induction idx as [|i idx IH]; intros b.
  - simpl. split; [eauto|]. intros H. destruct H. constructor.
  - rewrite foldl_step.
    destruct (budget_step_outcome c1 c2 o1 o2 m1 m2 b i) as [Hok Herr].
    split.
    + intros [Hi Hrest]%Forall_cons. destruct (Hok Hi) as [b' ->].
      by apply IH.
    + intros Hno.
      assert (Hdec : served c1 c2 o1 o2 m1 m2 i
                     \/ ~ served c1 c2 o1 o2 m1 m2 i)
        by (unfold served; lia).
      destruct Hdec as [Hi|Hi].
      * destruct (Hok Hi) as [b' ->]. apply IH. intros Hrest.
        apply Hno. by constructor.
      * rewrite (Herr Hi). apply budget_fold_raised.
Qed.

Lemma orders_length (column : list Q) :
  length (orders column) = Nat.max (length column) 1.
Proof.
  unfold orders, np.diff. simpl. rewrite length_zip_with.
  destruct column; simpl; lia.
Qed.

(** X12.  [returns] gives a value exactly when both series of closes have
    a first date and cover all dates of the positions but the last one;
    otherwise it raises an IndexError, and it raises nothing else. *)
Theorem returns_outcome (self : Strategy) :
  let n := length (positions self) in
  let closed1 := closed (equity1 (pair self)) in
  let closed2 := closed (equity2 (pair self)) in
  let covered := (0 < length closed1 /\ 0 < length closed2
                  /\ n - 1 <= length closed1
                  /\ n - 1 <= length closed2)%nat in
  ((exists r, returns self = inr r) <-> covered)
  /\ (returns self = inl IndexError <-> ~ covered)
  /\ (forall e, returns self = inl e -> e = IndexError).
Proof.
  intros n closed1 closed2 covered.
  assert (Hcases : (covered /\ exists r, returns self = inr r)
                   \/ (~ covered /\ returns self = inl IndexError)).
  { unfold returns. fold closed1 closed2.
    destruct (iloc_outcome closed1 0) as [Hok1 Herr1].
    destruct (iloc_outcome closed2 0) as [Hok2 Herr2].
    destruct (le_lt_dec (length closed1) 0) as [H1|H1].
    { right. rewrite (Herr1 H1). split; [unfold covered; lia|done]. }
    destruct (Hok1 H1) as [first1 ->].
    destruct (le_lt_dec (length closed2) 0) as [H2|H2].
    { right. rewrite (Herr2 H2). split; [unfold covered; lia|done]. }
    destruct (Hok2 H2) as [first2 ->]. unfold budget_loop, ret.
    unfold bind. cbv beta iota.
    set (o1 := orders _). set (o2 := orders _).
    assert (Hlo1 : length o1 = Nat.max n 1).
    { unfold o1. rewrite orders_length, length_fmap.
      by rewrite rounded_positions_length. }
    assert (Hlo2 : length o2 = Nat.max n 1).
    { unfold o2. rewrite orders_length, length_fmap.
      by rewrite rounded_positions_length. }
    destruct (budget_fold_outcome closed1 closed2 o1 o2 (commission <$> o1)
                (commission <$> o2) (np.range 0 (length o1 - 1))
                (_truncate (1000 * (first1 + first2)) 2)) as [Hok Herr].
    assert (Hall : Forall (served closed1 closed2 o1 o2 (commission <$> o1)
                             (commission <$> o2))
                          (np.range 0 (length o1 - 1))
                   <-> (n - 1 <= length closed1 /\ n - 1 <= length closed2)%nat).
    { rewrite Forall_forall. unfold served. rewrite !length_fmap.
      setoid_rewrite elem_of_range. rewrite Hlo1, Hlo2. split.
      - intros H. split.
        + destruct (le_lt_dec (n - 1) (length closed1)) as [|Hlt]; [done|].
          specialize (H (length closed1)). lia.
        + destruct (le_lt_dec (n - 1) (length closed2)) as [|Hlt]; [done|].
          specialize (H (length closed2)). lia.
      - intros [Ha Hb] i Hi. lia. }
    assert (Hdec : (n - 1 <= length closed1 /\ n - 1 <= length closed2)%nat
                   \/ ~ (n - 1 <= length closed1
                         /\ n - 1 <= length closed2)%nat) by lia.
    destruct Hdec as [Hyes|Hno].
    - left. split; [unfold covered; lia|].
      destruct (Hok (proj2 Hall Hyes)) as [b' ->]. simpl. eauto.
    - right. split; [unfold covered; lia|].
      rewrite Herr; [done|]. intros H. apply Hno. by apply Hall. }
  destruct Hcases as [[Hc [r Hr]]|[Hc Hr]]; rewrite Hr.
  - split; [|split]; [split; eauto| split; [discriminate|done] |discriminate].
  - split; [|split].
    + split; [intros [r Hr']; discriminate Hr'|done].
    + split; done.
    + by intros e [= <-].
Qed.

(** Row [j] after the turns [start, .., start+cnt-1] of the rounding
    loop. *)
Lemma round_fold_lookup (opt : list (Q * Q)) (cnt : nat) :
  forall (start : nat) (rounded : list (Q * Q)) (j : nat),
    foldl (round_step opt) rounded (seq start cnt) !! j
    = if decide (start <= j < start + cnt /\ j < length rounded)%nat
      then match opt !! j with
           | Some (a, b) =>
               Some ((_truncate a 3 * inject_Z (10 ^ 3))%Q,
                     (_truncate b 3 * inject_Z (10 ^ 3))%Q)
           | None => rounded !! j
           end
      else rounded !! j.
Proof.
  induction cnt as [|cnt IH]; intros start rounded j.
  - simpl. case_decide; [lia|done].
  - change (seq start (S cnt)) with (start :: seq (S start) cnt).
    rewrite foldl_step, IH, round_step_length.
    destruct (decide (j = start)) as [->|Hne].
    + rewrite decide_False by lia. unfold round_step.
      destruct (opt !! start) as [[a b]|] eqn:E.
      * case_decide.
        -- rewrite list_lookup_insert_eq by lia. done.
        -- rewrite list_insert_ge by lia. done.
      * by case_decide.
    + assert (Hsame : round_step opt rounded start !! j = rounded !! j).
      { unfold round_step. destruct (opt !! start) as [[a b]|]; [|done].
        by rewrite list_lookup_insert_ne. }
      rewrite Hsame. repeat case_decide; try lia; done.
Qed.

Lemma rounded_positions_lookup (self : Strategy) (i : nat) (a b : Q) :
  positions self !! i = Some (a, b) ->
  rounded_positions self !! i
  = Some (if decide (lookback self <= i
                     /\ i + 1 < length (positions self))%nat
          then ((_truncate a 3 * inject_Z (10 ^ 3))%Q,
                (_truncate b 3 * inject_Z (10 ^ 3))%Q)
          else (0%Q, 0%Q)).
Proof.
  intros Hi. pose proof (lookup_lt_Some _ _ _ Hi) as Hlt.
  unfold rounded_positions, np.range.
  rewrite round_fold_lookup, Hi. unfold np.zeros.
  rewrite length_replicate.
  repeat case_decide; try lia; try done.
  all: apply lookup_replicate; split; [done|lia].
Qed.

Lemma diff_cons (a b : Q) (rest : list Q) :
  np.diff (a :: b :: rest) = (b - a)%Q :: np.diff (b :: rest).
Proof. reflexivity. Qed.

Lemma diff_prefix_sum (rest : list Q) : forall (a : Q) (k : nat) (x : Q),
  rest !! k = Some x ->
  (Qsum (take (S k) (np.diff (a :: rest))) == x - a)%Q.
Proof.
  induction rest as [|b rest IH]; intros a k x Hk; [done|].
  rewrite diff_cons. destruct k as [|k]; simpl in Hk.
  - injection Hk as <-. simpl. ring.
  - change (take (S (S k)) ((b - a)%Q :: np.diff (b :: rest)))
      with ((b - a)%Q :: take (S k) (np.diff (b :: rest))).
    unfold Qsum. simpl. fold (Qsum (take (S k) (np.diff (b :: rest)))).
    rewrite (IH b k x Hk). ring.
Qed.

Lemma orders_prefix_sum (column : list Q) (k : nat) (first x : Q) :
  column !! 0%nat = Some first ->
  column !! k = Some x ->
  (Qsum (take (S k) (orders column)) == x - first)%Q.
Proof.
  intros H0 Hk. destruct column as [|a rest]; [done|].
  injection H0 as ->.
  unfold orders. destruct k as [|k]; simpl in Hk.
  - injection Hk as <-. unfold Qsum. simpl. ring.
  - change (take (S (S k)) (0%Q :: np.diff (first :: rest)))
      with (0%Q :: take (S k) (np.diff (first :: rest))).
    unfold Qsum. simpl.
    fold (Qsum (take (S k) (np.diff (first :: rest)))).
    rewrite (diff_prefix_sum rest first k x Hk). ring.
Qed.



(** X15.  With a lookback of at least one date and at least two dates,
    the budget loop of [returns] visits the dates 0 to n-2, and the
    orders it applies add up, for each instrument, to the rounded
    position of date n-2: the position held at the end is never sold. *)
Theorem returns_never_sells_out (self : Strategy) (a b : Q) :
  let n := length (positions self) in
  let rounded := rounded_positions self in
  (0 < lookback self)%nat ->
  (2 <= n)%nat ->
  rounded !! (n - 2)%nat = Some (a, b) ->
  np.range 0 (length (orders (rounded.*1)) - 1) = seq 0 (n - 1)
  /\ (Qsum (take (n - 1) (orders (rounded.*1))) == a)%Q
  /\ (Qsum (take (n - 1) (orders (rounded.*2))) == b)%Q.
Proof.
  intros n rounded Hlb Hn Hrow.
  assert (H0 : rounded !! 0%nat = Some (0%Q, 0%Q)).
  { apply rounded_positions_zero_rows; fold n; lia. }
  assert (Hlen : length rounded = n) by apply rounded_positions_length.
  replace (n - 1)%nat with (S (n - 2)) by lia.
  split; [|split].
  - unfold np.range. rewrite orders_length, length_fmap, Hlen.
    f_equal. lia.
  - rewrite (orders_prefix_sum (rounded.*1) (n - 2) 0%Q a); [ring| |];
      by rewrite list_lookup_fmap, ?H0, ?Hrow.
  - rewrite (orders_prefix_sum (rounded.*2) (n - 2) 0%Q b); [ring| |];
      by rewrite list_lookup_fmap, ?H0, ?Hrow.
Qed.

Lemma returns_never_sells_out_witness :
  (Qsum (take 3 (orders ((rounded_positions fixtures.strategy_ab).*1)))
   == 500)%Q
  /\ (Qsum (take 3 (orders ((rounded_positions fixtures.strategy_ab).*2)))
      == -1000)%Q.
Proof.
  destruct (returns_never_sells_out fixtures.strategy_ab
              (_truncate 0.5 3 * inject_Z (10 ^ 3))%Q
              (_truncate (-1) 3 * inject_Z (10 ^ 3))%Q)
    as (_ & Ha & Hb); [simpl; lia|simpl; lia|reflexivity|].
  split.
  - apply (Qeq_trans _ _ _ Ha). vm_compute. reflexivity.
  - apply (Qeq_trans _ _ _ Hb). vm_compute. reflexivity.
Defined.

(** A number below one thousandth in magnitude truncates to 0 at three
    places. *)
Lemma truncate_small (x : Q) :
  (Qabs x < 1 # 1000)%Q -> (_truncate x 3 == 0)%Q.
Proof.
  assert (Hpos : forall y : Q, (0 <= y)%Q -> (y < 1 # 1000)%Q ->
                   (_truncate y 3 == 0)%Q).
  { intros [n d] H0 Hlt. unfold Qle in H0. unfold Qlt in Hlt.
    simpl in H0, Hlt. unfold _truncate. simpl Qnum. simpl Qden.
    rewrite Z.quot_small by lia. reflexivity. }
  intros H. destruct (Qlt_le_dec x 0) as [Hneg|Hge].
  - assert (Hx : (0 <= - x)%Q).
    { apply (Qopp_le_compat x 0). by apply Qlt_le_weak. }
    rewrite <- (Qabs_opp x), (Qabs_pos _ Hx) in H.
    pose proof (Hpos (- x)%Q Hx H) as Hz. rewrite truncate_opp in Hz.
    rewrite <- (Qopp_involutive (_truncate x 3)), Hz. reflexivity.
  - rewrite (Qabs_pos _ Hge) in H. by apply Hpos.
Qed.

(** With all rounded positions zero, [returns] is what is left of the
    initial budget after its truncation. *)
Lemma returns_flat (self : Strategy) (c1 c2 : Q) :
  Forall zero_row (rounded_positions self) ->
  closed (equity1 (pair self)) !! 0%nat = Some c1 ->
  closed (equity2 (pair self)) !! 0%nat = Some c2 ->
  (length (positions self) - 1 <= length (closed (equity1 (pair self))))%nat ->
  (length (positions self) - 1 <= length (closed (equity2 (pair self))))%nat ->
  let init_budget := (1000 * (c1 + c2))%Q in
  exists r, returns self = inr r
            /\ (r == _truncate init_budget 2 / init_budget - 1)%Q.
Proof.
  intros Hz Hc1 Hc2 Hn1 Hn2 init_budget.
  unfold returns. cbv zeta.
  unfold iloc at 1 2. rewrite Hc1, Hc2. unfold bind at 1 2.
  unfold ret at 1 2. cbv beta iota. fold init_budget.
  pose proof (rounded_positions_length self) as Hlen.
  assert (Hz1 : Forall (fun x => (x == 0)%Q)
                       (orders ((rounded_positions self).*1))).
  { apply orders_all_zero. apply Forall_fmap.
    eapply Forall_impl; [exact Hz|]. by intros r [H _]. }
  assert (Hz2 : Forall (fun x => (x == 0)%Q)
                       (orders ((rounded_positions self).*2))).
  { apply orders_all_zero. apply Forall_fmap.
    eapply Forall_impl; [exact Hz|]. by intros r [_ H]. }
  destruct (budget_loop_no_orders (closed (equity1 (pair self)))
              (closed (equity2 (pair self)))
              (orders ((rounded_positions self).*1))
              (orders ((rounded_positions self).*2))
              (_truncate init_budget 2))
    as (b' & Hloop & Hb'); try done.
  - by rewrite !orders_length, !length_fmap.
  - rewrite orders_length, length_fmap, Hlen. lia.
  - rewrite orders_length, length_fmap, Hlen. lia.
  - rewrite Hloop. unfold bind, ret.
    eexists. split; [reflexivity|]. by rewrite Hb'.
Qed.

(** X16.  A strategy whose lookback reaches the second to last date, or
    whose positions are all below one thousandth of a unit in magnitude,
    places no order: whatever its positions are, [returns] is
    truncate(B, 2) / B - 1 for B = 1000 (close1 + close2) of the first
    date. *)
Theorem returns_without_orders (self : Strategy) (c1 c2 : Q) :
  closed (equity1 (pair self)) !! 0%nat = Some c1 ->
  closed (equity2 (pair self)) !! 0%nat = Some c2 ->
  (length (positions self) - 1 <= length (closed (equity1 (pair self))))%nat ->
  (length (positions self) - 1 <= length (closed (equity2 (pair self))))%nat ->
  (length (positions self) - 1 <= lookback self)%nat
  \/ Forall (fun row => (Qabs (fst row) < 1 # 1000)%Q
                        /\ (Qabs (snd row) < 1 # 1000)%Q) (positions self) ->
  let init_budget := (1000 * (c1 + c2))%Q in
  exists r, returns self = inr r
            /\ (r == _truncate init_budget 2 / init_budget - 1)%Q.
Proof.
  intros Hc1 Hc2 Hn1 Hn2 Hflat. apply returns_flat; try done.
  apply Forall_lookup. intros i row Hrow.
  assert (Hi : (i < length (positions self))%nat).
  { rewrite <- rounded_positions_length. by eapply lookup_lt_Some. }
  destruct (lookup_lt_is_Some_2 _ _ Hi) as [[a b] Hab].
  rewrite (rounded_positions_lookup self i a b Hab) in Hrow.
  injection Hrow as <-.
  case_decide as Hin; [|by split].
  destruct Hflat as [Hlb|Hsmall]; [lia|].
  rewrite Forall_lookup in Hsmall.
  destruct (Hsmall i (a, b) Hab) as [Ha Hb]. cbn [fst snd] in Ha, Hb.
  split; cbn [fst snd].
  - rewrite (truncate_small a Ha). ring.
  - rewrite (truncate_small b Hb). ring.
Qed.

Lemma returns_without_orders_witness :
  exists r,
    returns (mkStrategy fixtures.pair_ab 3
               [(1, -1); (1, -1); (0.5, -1); (2, 3)]%Q) = inr r
    /\ (r == _truncate (1000 * (1 + 1)) 2 / (1000 * (1 + 1)) - 1)%Q.
Proof.
  apply (returns_without_orders
           (mkStrategy fixtures.pair_ab 3
              [(1, -1); (1, -1); (0.5, -1); (2, 3)]%Q) 1%Q 1%Q);
    [reflexivity|reflexivity|simpl; lia|simpl; lia|left; simpl; lia].
Defined.

(** ** [Strategy.th_returns] *)

Lemma removelast_lookup {A : Type} (l : list A) : forall i,
  (S i < length l)%nat -> removelast l !! i = l !! i.
Proof.
  induction l as [|x l IH]; intros i Hi; simpl in Hi; [lia|].
  destruct l as [|y l]; [simpl in Hi; lia|].
  change (removelast (x :: y :: l)) with (x :: removelast (y :: l)).
  destruct i as [|i]; [done|]. simpl. apply IH. simpl in *. lia.
Qed.

Lemma removelast_length {A : Type} (l : list A) :
  length (removelast l) = (length l - 1)%nat.
Proof.
  induction l as [|x l IH]; [done|].
  destruct l as [|y l]; [done|].
  change (removelast (x :: y :: l)) with (x :: removelast (y :: l)).
  simpl in *. rewrite IH. lia.
Qed.

Lemma shift_length {A : Type} (rows : list A) :
  length (pd.shift rows) = length rows.
Proof.
  unfold pd.shift. destruct rows as [|x rows]; [done|].
  cbn [length]. rewrite length_fmap, removelast_length. simpl. lia.
Qed.

Lemma shift_lookup {A : Type} (rows : list A) (i : nat) (x : A) :
  rows !! i = Some x -> (S i < length rows)%nat ->
  pd.shift rows !! S i = Some (Some x).
Proof.
  intros Hx Hi. unfold pd.shift. destruct rows as [|y rows]; [done|].
  change ((None :: (Some <$> removelast (y :: rows))) !! S i)
    with ((Some <$> removelast (y :: rows)) !! i).
  rewrite list_lookup_fmap, removelast_lookup by done. by rewrite Hx.
Qed.

Lemma pct_change_length (df : list (Q * Q)) :
  length (pd.pct_change df) = length df.
Proof.
  unfold pd.pct_change. destruct df as [|c df]; [done|].
  cbn [length]. rewrite length_zip_with. simpl. lia.
Qed.

Lemma pct_change_lookup (df : list (Q * Q)) (i : nat) (c c' : Q * Q) :
  df !! i = Some c -> df !! S i = Some c' ->
  pd.pct_change df !! S i
  = Some (Some ((fst c' / fst c - 1)%Q, (snd c' / snd c - 1)%Q)).
Proof.
  intros Hc Hc'. unfold pd.pct_change. destruct df as [|c0 rest]; [done|].
  change ((None :: ?l) !! S i) with (l !! i).
  simpl in Hc'. by rewrite lookup_zip_with, Hc', Hc.
Qed.

(** The shape of the result of [th_returns]. *)
Lemma th_returns_length (self : Strategy) (r : list (option Q)) :
  th_returns self = inr r -> length r = length (prices (pair self)).
Proof.
  unfold th_returns.
  destruct (np.broadcast_rows _ _) as [e|opt] eqn:E; [discriminate|].
  simpl. intros [= <-].
  assert (Hopt : length opt = length (prices (pair self))).
  { unfold np.broadcast_rows in E.
    destruct (Nat.eqb_spec (length (positions self))
                (length (prices (pair self)))) as [Heq|Hne].
    - by injection E as <-.
    - destruct (positions self) as [|row [|row' rest]]; try discriminate E.
      injection E as <-. apply length_replicate. }
  rewrite !length_zip_with, length_fmap, !shift_length, pct_change_length,
    length_zip_with. lia.
Qed.

(** The return of a date after the first. *)
Lemma th_returns_lookup (self : Strategy) (i : nat) (o c c' : Q * Q) :
  length (positions self) = length (prices (pair self)) ->
  positions self !! i = Some o ->
  prices (pair self) !! i = Some c ->
  prices (pair self) !! S i = Some c' ->
  exists r, th_returns self = inr r
            /\ r !! S i = Some (th_return_at o c c').
Proof.
  intros Hlen Ho Hc Hc'. unfold th_returns, np.broadcast_rows.
  rewrite (proj2 (Nat.eqb_eq _ _) Hlen). simpl.
  eexists. split; [reflexivity|].
  pose proof (lookup_lt_Some _ _ _ Hc') as Hi.
  rewrite lookup_zip_with, lookup_zip_with, list_lookup_fmap.
  rewrite (shift_lookup _ i ((fst o * fst c)%Q, (snd o * snd c)%Q)).
  - rewrite (pct_change_lookup _ i c c') by done. reflexivity.
  - by rewrite lookup_zip_with, Ho, Hc.
  - rewrite length_zip_with. lia.
Qed.

(** X17.  [th_returns] gives a value exactly when the positions have one
    row per date or a single row; otherwise it raises a ValueError.  Its
    value has one entry per date, and the first is "not available". *)
Theorem th_returns_outcome (self : Strategy) :
  aligned (pair self) ->
  let n := length (positions self) in
  let m := length (closed (equity1 (pair self))) in
  ((exists r, th_returns self = inr r) <-> n = m \/ n = 1%nat)
  /\ (th_returns self = inl ValueError <-> ~ (n = m \/ n = 1%nat))
  /\ (forall r, th_returns self = inr r ->
        length r = m /\ ((0 < m)%nat -> r !! 0%nat = Some None)).
Proof.
  intros Hal n m. pose proof (prices_length (pair self) Hal) as Hm.
  fold m in Hm.
  assert (Hcases : (exists r, th_returns self = inr r) /\ (n = m \/ n = 1%nat)
                   \/ th_returns self = inl ValueError
                      /\ ~ (n = m \/ n = 1%nat)).
  { unfold th_returns, np.broadcast_rows. rewrite Hm. fold n.
    destruct (Nat.eqb_spec n m) as [Heq|Hne].
    - left. simpl. split; [eauto|by left].
    - destruct (positions self) as [|row [|row' rest]] eqn:E;
        unfold n in *; simpl in *.
      + right. split; [done|lia].
      + left. split; [eauto|by right].
      + right. split; [done|lia]. }
  split; [|split].
  - destruct Hcases as [[Hr Hc]|[Hr Hc]]; [done|].
    rewrite Hr. split; [intros [r Hr']; discriminate Hr'|done].
  - destruct Hcases as [[[r Hr] Hc]|[Hr Hc]]; rewrite Hr; [|done].
    split; [discriminate|done].
  - intros r Hr. pose proof (th_returns_length self r Hr) as Hlen.
    rewrite Hm in Hlen. split; [done|].
    intros Hpos. destruct (th_returns_first self r Hr) as [->|H0]; [|done].
    simpl in Hlen. lia.
Qed.

Lemma th_returns_outcome_witness :
  exists r, th_returns fixtures.strategy_ab = inr r.
Proof.
  apply (th_returns_outcome fixtures.strategy_ab); [reflexivity|].
  left. reflexivity.
Defined.

Lemma Qabs_sum_zero (a b : Q) :
  (Qabs a + Qabs b == 0)%Q <-> (a == 0)%Q /\ (b == 0)%Q.
Proof.
  split.
  - intros H. pose proof (Qabs_nonneg a) as Ha.
    pose proof (Qabs_nonneg b) as Hb.
    assert (Ha0 : (Qabs a <= 0)%Q).
    { rewrite <- H. rewrite <- (Qplus_0_r (Qabs a)) at 1.
      by apply Qplus_le_compat; [apply Qle_refl|]. }
    assert (Hb0 : (Qabs b <= 0)%Q).
    { rewrite <- H. rewrite <- (Qplus_0_l (Qabs b)) at 1.
      by apply Qplus_le_compat; [|apply Qle_refl]. }
    split.
    + apply Qabs_Qle_condition in Ha0 as [H1 H2].
      by apply Qle_antisym.
    + apply Qabs_Qle_condition in Hb0 as [H1 H2].
      by apply Qle_antisym.
  - intros [-> ->]. reflexivity.
Qed.

Lemma th_return_at_None (o c c' : Q * Q) :
  ~ (fst c == 0)%Q -> ~ (snd c == 0)%Q ->
  th_return_at o c c' = None <-> (fst o == 0)%Q /\ (snd o == 0)%Q.
Proof.
  intros Hc1 Hc2. unfold th_return_at. cbn [fst snd].
  destruct (Qeq_bool _ 0) eqn:E.
  - apply Qeq_bool_iff, Qabs_sum_zero in E as [E1 E2].
    split; [|done]. intros _. split.
    + by destruct (Qmult_integral _ _ E1).
    + by destruct (Qmult_integral _ _ E2).
  - split; [done|]. intros [H1 H2]. apply Qeq_bool_neq in E.
    exfalso. apply E. rewrite H1, H2. reflexivity.
Qed.

(** X18.  After the first date, the theoretical return of a date is "not
    available" exactly when the position of the date before is zero in
    both instruments (the closes of that date not being zero). *)
Theorem th_returns_flat_days (self : Strategy) (i : nat) (o c c' : Q * Q) :
  aligned (pair self) ->
  length (positions self) = length (prices (pair self)) ->
  positions self !! i = Some o ->
  prices (pair self) !! i = Some c ->
  prices (pair self) !! S i = Some c' ->
  ~ (fst c == 0)%Q -> ~ (snd c == 0)%Q ->
  exists r, th_returns self = inr r
            /\ (r !! S i = Some None
                <-> (fst o == 0)%Q /\ (snd o == 0)%Q).
Proof.
  intros _ Hlen Ho Hc Hc' Hc1 Hc2.
  destruct (th_returns_lookup self i o c c' Hlen Ho Hc Hc') as (r & Hr & Hi).
  exists r. split; [done|]. rewrite Hi.
  rewrite <- (th_return_at_None o c c' Hc1 Hc2).
  split; [by intros [= ->]|by intros ->].
Qed.

Lemma th_returns_flat_days_witness :
  exists r, th_returns (mkStrategy fixtures.pair_ab 1
                          [(1, -1); (0, 0); (0.5, -1); (2, 3)]%Q) = inr r
            /\ (r !! 2%nat = Some None <-> (0 == 0)%Q /\ (0 == 0)%Q).
Proof.
  apply (th_returns_flat_days
           (mkStrategy fixtures.pair_ab 1
              [(1, -1); (0, 0); (0.5, -1); (2, 3)]%Q)
           1 (0%Q, 0%Q) (3%Q, 2%Q) (4%Q, 3%Q));
    try reflexivity; refute_Qeq.
Defined.

(** ** [Strategy.MDD] and [Strategy.ann_returns] *)

Lemma fold_max_bounds (xs : list Q) : forall x : Q,
  (x <= foldl Qmax x xs)%Q
  /\ (forall y, y ∈ xs -> (y <= foldl Qmax x xs)%Q)
  /\ foldl Qmax x xs ∈ x :: xs.
Proof.
  induction xs as [|z xs IH]; intros x; simpl.
  - split; [apply Qle_refl|]. split; [by intros y Hy%elem_of_nil|].
    apply list_elem_of_here.
  - destruct (IH (Qmax x z)) as (H1 & H2 & H3). split; [|split].
    + eapply Qle_trans; [apply Q.le_max_l|exact H1].
    + intros y [->|Hy]%elem_of_cons; [|by apply H2].
      eapply Qle_trans; [apply Q.le_max_r|exact H1].
    + apply elem_of_cons in H3 as [H3|H3].
      * rewrite H3. unfold Qmax, GenericMinMax.gmax.
        destruct (x ?= z)%Q.
        -- apply list_elem_of_here.
        -- apply list_elem_of_further, list_elem_of_here.
        -- apply list_elem_of_here.
      * by do 2 apply list_elem_of_further.
Qed.

Lemma fold_min_le (xs : list Q) : forall x : Q,
  (foldl Qmin x xs <= x)%Q.
Proof.
  induction xs as [|z xs IH]; intros x; simpl; [apply Qle_refl|].
  eapply Qle_trans; [apply IH|apply Q.le_min_l].
Qed.

(** X21.  When [MDD] is a finite number it is (min - max) / max of the
    available theoretical returns, so its sign is set by the greatest
    return: not positive when some return is positive, and not negative
    when every available return is negative. *)
Theorem MDD_sign (self : Strategy) (r : list (option Q)) (v : Q) :
  aligned (pair self) ->
  th_returns self = inr r ->
  MDD self = inr (Some v) ->
  (exists lowest highest,
     series_min r = Some lowest /\ series_max r = Some highest
     /\ (lowest <= highest)%Q /\ v = ((lowest - highest) / highest)%Q)
  /\ ((exists y, y ∈ available r /\ (0 < y)%Q) -> (v <= 0)%Q)
  /\ ((forall y, y ∈ available r -> (y < 0)%Q) -> (0 <= v)%Q).
Proof.
  intros _ Hr. unfold MDD. rewrite Hr. unfold bind, ret.
  unfold series_min, series_max.
  destruct (available r) as [|x xs] eqn:Eav; [discriminate|].
  destruct (Qeq_bool (foldl Qmax x xs) 0) eqn:E; [discriminate|].
  intros [= <-]. apply Qeq_bool_neq in E.
  destruct (fold_max_bounds xs x) as (Hx & Hall & Hin).
  pose proof (fold_min_le xs x) as Hmin.
  set (hi := foldl Qmax x xs) in *. set (lo := foldl Qmin x xs) in *.
  assert (Hlohi : (lo <= hi)%Q) by (by eapply Qle_trans).
  assert (Hdiff : (lo - hi <= 0)%Q).
  { apply (Qplus_le_l _ _ hi). by ring_simplify. }
  split; [by exists lo, hi|]. split.
  - intros (y & Hy & Hpos).
    assert (Hhi : (0 < hi)%Q).
    { eapply Qlt_le_trans; [exact Hpos|].
      apply elem_of_cons in Hy as [->|Hy]; [done|by apply Hall]. }
    apply Qle_shift_div_r; [done|]. by rewrite Qmult_0_l.
  - intros Hneg.
    assert (Hhi : (hi < 0)%Q) by (by apply Hneg).
    assert (Hopp : (0 < - hi)%Q).
    { apply (Qplus_lt_l _ _ hi). by ring_simplify. }
    assert (Heq : ((lo - hi) / hi == (hi - lo) / - hi)%Q) by (by field).
    rewrite Heq. apply Qle_shift_div_l; [done|]. rewrite Qmult_0_l.
    apply (Qplus_le_l _ _ lo). by ring_simplify.
Qed.

Lemma MDD_sign_witness :
  exists lowest highest,
    series_min [None; Some (1 # 2); Some (0 # 30); Some (1200 # 6000)]%Q
    = Some lowest
    /\ series_max [None; Some (1 # 2); Some (0 # 30); Some (1200 # 6000)]%Q
       = Some highest
    /\ (lowest <= highest)%Q
    /\ (((0 # 30) - (1 # 2)) / (1 # 2))%Q
       = ((lowest - highest) / highest)%Q.
Proof.
  apply (MDD_sign fixtures.strategy_ab
           [None; Some (1 # 2); Some (0 # 30); Some (1200 # 6000)]%Q
           (((0 # 30) - (1 # 2)) / (1 # 2))%Q); reflexivity.
Defined.

(** X22.  [ann_returns] never returns a value: it raises what
    [cum_returns] raises, and when [cum_returns] returns its frame, the
    lookup of the column -1 in it raises a KeyError. *)
Theorem ann_returns_always_raises (power : Q -> Q -> Q) (self : Strategy) :
  (forall e, cum_returns self = inl e ->
     ann_returns power self = inl (Raised e))
  /\ (forall column, cum_returns self = inr column ->
        ann_returns power self = inl KeyError)
  /\ (forall v, ann_returns power self <> inr v).
Proof.
  unfold ann_returns.
  destruct (cum_returns self) as [e|column]; simpl.
  - split; [by intros ? [= <-]|]. split; [discriminate|discriminate].
  - split; [discriminate|]. split; [done|discriminate].
Qed.

(** ** [Strategy.cum_returns] and the life of a [Pair] *)

(** X23.  [cum_returns] raises exactly when [th_returns] does; its value
    has one entry per date, and the first is "not available" whatever the
    returns are. *)
Theorem cum_returns_shape (self : Strategy) :
  aligned (pair self) ->
  let m := length (closed (equity1 (pair self))) in
  (forall e, cum_returns self = inl e <-> th_returns self = inl e)
  /\ (forall c, cum_returns self = inr c ->
        length c = m /\ ((0 < m)%nat -> c !! 0%nat = Some None)).
Proof.
  intros Hal m. pose proof (prices_length (pair self) Hal) as Hm.
  fold m in Hm. split.
  - intros e. unfold cum_returns.
    destruct (th_returns self) as [e'|r]; simpl; [done|].
    split; discriminate.
  - intros c Hc. pose proof (cum_returns_first self c Hc) as Hfirst.
    unfold cum_returns in Hc.
    destruct (th_returns self) as [e'|r] eqn:Er; [discriminate|].
    simpl in Hc. injection Hc as <-.
    rewrite cum_returns_of_length, (th_returns_length self r Er), Hm.
    split; [done|]. intros Hpos. destruct Hfirst as [Hnil|H0]; [|done].
    assert (Hlen : length (cum_returns_of r) = m).
    { by rewrite cum_returns_of_length, (th_returns_length self r Er). }
    rewrite Hnil in Hlen. simpl in Hlen. lia.
Qed.

Lemma cum_returns_shape_witness :
  exists c, cum_returns fixtures.strategy_ab = inr c /\ length c = 4%nat.
Proof.
  eexists. split; [reflexivity|].
  apply (cum_returns_shape fixtures.strategy_ab); reflexivity.
Defined.

(** X24.  Whatever is called on a pair after its construction, its two
    equities and its dates stay those of the construction, with the start
    before the end; the hedge ratios, once there, have one row per date,
    and a stored spread has one value per date and is never there without
    hedge ratios. *)
Theorem reachable_shape ols (e1 e2 : Equity) (p : Pair) :
  length (closed e1) = length (closed e2) ->
  reachable ols e1 e2 p ->
  let n := length (closed e1) in
  equity1 p = e1 /\ equity2 p = e2
  /\ start_date p = Z.max (eq_start_date e1) (eq_start_date e2)
  /\ end_date p = Z.min (eq_end_date e1) (eq_end_date e2)
  /\ (start_date p < end_date p)%Z
  /\ (forall hr, hedge_ratios p = Some hr -> length hr = n)
  /\ (forall sp, _price_spread p = Some sp ->
        length sp = n /\ hedge_ratios p <> None).
Proof.
  intros Hal Hreach n.
  assert (Hn : length (zip (closed e1) (closed e2)) = n)
    by (rewrite length_zip; unfold n; lia).
  assert (Hfix : equity1 p = e1 /\ equity2 p = e2
                 /\ start_date p = Z.max (eq_start_date e1) (eq_start_date e2)
                 /\ end_date p = Z.min (eq_end_date e1) (eq_end_date e2)
                 /\ (start_date p < end_date p)%Z
                 /\ (_price_spread p <> None -> hedge_ratios p <> None)).
  { induction Hreach as [p Hinit|p p' c Hreach IH Hstep].
    - pose proof (Pair_init_dates e1 e2 p Hinit) as Hlt.
      unfold Pair_init in Hinit.
      rewrite resolved_start_is_max, resolved_end_is_min in Hinit.
      destruct (_ <=? _)%Z in Hinit; [discriminate Hinit|].
      injection Hinit as <-. simpl in *. by repeat split.
    - destruct IH as (H1 & H2 & H3 & H4 & H5 & H6).
      destruct c as [method L|]; simpl in Hstep.
      + unfold hedge in Hstep.
        destruct (L <=? 0)%Z; [discriminate Hstep|].
        destruct (String.eqb method "OLS"); [|discriminate Hstep].
        injection Hstep as <-. simpl. by repeat split.
      + unfold price_spread in Hstep.
        destruct (hedge_ratios p) as [hr|] eqn:Ehr; [|discriminate Hstep].
        destruct (_price_spread p) as [sp|] eqn:Esp; simpl in Hstep;
          injection Hstep as <-; simpl; rewrite ?Ehr; by repeat split. }
  destruct Hfix as (H1 & H2 & H3 & H4 & H5 & H6).
  destruct (reachable_invariant ols e1 e2 p Hreach) as (Hpr & Hhr & Hsp).
  repeat (split; [done|]). split.
  - intros hr Hh. destruct (Hhr hr Hh) as (L & _ & ->).
    by rewrite hedge_ols_length, Hpr.
  - intros sp Hs. split; [|apply H6; by rewrite Hs].
    destruct (Hsp sp Hs) as (L & _ & ->).
    unfold spread_of. rewrite length_zip_with, hedge_ols_length, Hpr, Hn.
    lia.
Qed.

Lemma reachable_shape_witness :
  exists s1 s2 s3 hr sp,
    step ols_slope fixtures.pair_ab (call_hedge "OLS" 2) = inr s1
    /\ step ols_slope s1 call_price_spread = inr s2
    /\ step ols_slope s2 (call_hedge "OLS" 3) = inr s3
    /\ hedge_ratios s3 = Some hr /\ length hr = 4%nat
    /\ _price_spread s3 = Some sp /\ length sp = 4%nat
    /\ hedge_ratios s3 <> None
    /\ equity1 s3 = fixtures.eq_a /\ equity2 s3 = fixtures.eq_b
    /\ start_date s3 = Z.max 0 0 /\ end_date s3 = Z.min 3 3
    /\ (start_date s3 < end_date s3)%Z.
Proof.
  pose (hr2 := _hedge_ols ols_slope fixtures.pair_ab 2).
  pose (s1 := mkPair fixtures.eq_a fixtures.eq_b 0 3 (Some hr2) None).
  pose (sp := spread_of hr2 (prices s1)).
  pose (s2 := mkPair fixtures.eq_a fixtures.eq_b 0 3 (Some hr2) (Some sp)).
  pose (hr := _hedge_ols ols_slope s2 3).
  pose (s3 := mkPair fixtures.eq_a fixtures.eq_b 0 3 (Some hr) (Some sp)).
  assert (E1 : step ols_slope fixtures.pair_ab (call_hedge "OLS" 2) = inr s1)
    by reflexivity.
  assert (E2 : step ols_slope s1 call_price_spread = inr s2) by reflexivity.
  assert (E3 : step ols_slope s2 (call_hedge "OLS" 3) = inr s3)
    by reflexivity.
  assert (R3 : reachable ols_slope fixtures.eq_a fixtures.eq_b s3).
  { apply (reach_step _ _ _ s2 s3 (call_hedge "OLS" 3)); [|exact E3].
    apply (reach_step _ _ _ s1 s2 call_price_spread); [|exact E2].
    apply (reach_step _ _ _ fixtures.pair_ab s1 (call_hedge "OLS" 2));
      [|exact E1].
    apply reach_init. reflexivity. }
  destruct (reachable_shape ols_slope fixtures.eq_a fixtures.eq_b s3
              eq_refl R3)
    as (H1 & H2 & H3 & H4 & H5 & Hhr & Hsp).
  exists s1, s2, s3, hr, sp.
  split; [exact E1|]. split; [exact E2|]. split; [exact E3|].
  split; [reflexivity|].
  split; [exact (Hhr hr eq_refl)|]. split; [reflexivity|].
  split; [exact (proj1 (Hsp sp eq_refl))|].
  split; [exact (proj2 (Hsp sp eq_refl))|].
  repeat (split; [assumption|]). assumption.
Defined.

(** * The digits of the results: binary64 *)

Import PrimFloat.

#[local] Set Warnings "-inexact-float".

(** ** C7: the commission that [returns] charges *)

(** Row [j] after the turns [start, .., start+cnt-1] of a loop that
    writes [w i] to row [i] when there is one. *)
Lemma fold_write_lookup {A : Type} (w : nat -> option A) (cnt : nat) :
  forall (start : nat) (l : list A) (j : nat),
    foldl (fun l i => match w i with
                      | Some v => <[i := v]> l
                      | None => l
                      end) l (seq start cnt) !! j
    = if decide (start <= j < start + cnt /\ j < length l)%nat
      then match w j with Some v => Some v | None => l !! j end
      else l !! j.
Proof.
  induction cnt as [|cnt IH]; intros start l j.
  - simpl. case_decide; [lia|done].
  - change (seq start (S cnt)) with (start :: seq (S start) cnt).
    rewrite foldl_step, IH.
    assert (Hlen : length (match w start with
                           | Some v => <[start := v]> l
                           | None => l
                           end) = length l).
    { destruct (w start); [apply length_insert|done]. }
    rewrite Hlen. destruct (decide (j = start)) as [->|Hne].
    + rewrite decide_False by lia. destruct (w start) as [v|]; [|by case_decide].
      case_decide.
      * by rewrite list_lookup_insert_eq by lia.
      * by rewrite list_insert_ge by lia.
    + assert (Hsame : match w start with
                      | Some v => <[start := v]> l
                      | None => l
                      end !! j = l !! j).
      { destruct (w start); [by rewrite list_lookup_insert_ne|done]. }
      rewrite Hsame. repeat case_decide; try lia; done.
Qed.

Lemma b64_rounded_length (lookback : nat) (pos : list (float * float)) :
  length (b64.rounded_positions lookback pos) = length pos.
Proof.
  unfold b64.rounded_positions.
  generalize (np.range lookback (length pos - 1)). intros idx.
  assert (H : forall l, length (foldl (b64.round_step pos) l idx) = length l).
  { induction idx as [|i idx IH]; intros l; simpl; [done|].
    rewrite IH. unfold b64.round_step.
    destruct (b64.round_row <$> pos !! i); [apply length_insert|done]. }
  rewrite H. apply length_replicate.
Qed.

(** The rounding loop, date by date. *)
Lemma b64_rounded_lookup (lookback : nat) (pos : list (float * float))
    (k : nat) :
  (k < length pos)%nat ->
  b64.rounded_positions lookback pos !! k
  = Some (b64.rounded_at lookback pos k).
Proof.
  intros Hk. unfold b64.rounded_positions, b64.round_step, np.range.
  rewrite (fold_write_lookup (fun i => b64.round_row <$> pos !! i)).
  rewrite length_replicate. unfold b64.rounded_at.
  destruct (lookup_lt_is_Some_2 pos k Hk) as [o Ho]. rewrite Ho. simpl.
  repeat case_decide; try lia; try done.
  all: apply lookup_replicate; split; [done|lia].
Qed.

(** The orders, date by date. *)
Lemma b64_orders_lookup (column : list float) (position_at : nat -> float)
    (k : nat) :
  (forall i, (i < length column)%nat -> column !! i = Some (position_at i)) ->
  (k < length column)%nat ->
  b64.orders column !! k = Some (b64.order_at position_at k).
Proof.
  intros Hcol Hk. unfold b64.orders. destruct k as [|j]; [done|].
  change ((?x :: ?l) !! S j) with (l !! j).
  rewrite lookup_zip_with, lookup_tail, (Hcol (S j)), (Hcol j) by lia.
  done.
Qed.

Lemma b64_orders_length (column : list float) :
  length (b64.orders column) = Nat.max (length column) 1.
Proof.
  unfold b64.orders. cbn [length]. rewrite length_zip_with.
  destruct column; simpl; lia.
Qed.

(** The budget loop, date by date. *)
Lemma b64_budget_fold (lookback : nat) (pos : list (float * float))
    (closed1 closed2 : list float) (start : float) (k : nat) :
  (k <= length pos - 1)%nat ->
  (k <= length closed1)%nat -> (k <= length closed2)%nat ->
  let rounded := b64.rounded_positions lookback pos in
  let o1 := b64.orders (rounded.*1) in
  let o2 := b64.orders (rounded.*2) in
  foldl (b64.budget_step closed1 closed2 o1 o2 (b64.commission <$> o1)
                         (b64.commission <$> o2))
        (inr start) (seq 0 k)
  = inr (b64.budget_after lookback pos closed1 closed2 start k).
Proof.
  intros Hk H1 H2 rounded o1 o2.
  induction k as [|k IH]; [done|].
  rewrite seq_S, foldl_app, IH by lia.
  change (0 + k)%nat with k. rewrite foldl_step.
  change (foldl ?f ?a []) with a.
  assert (Hlen : length rounded = length pos) by apply b64_rounded_length.
  assert (Ho1 : o1 !! k = Some (b64.order_at
                  (fun i => fst (b64.rounded_at lookback pos i)) k)).
  { apply b64_orders_lookup; rewrite length_fmap, Hlen; [|lia].
    intros i Hi. unfold rounded.
    by rewrite list_lookup_fmap, b64_rounded_lookup. }
  assert (Ho2 : o2 !! k = Some (b64.order_at
                  (fun i => snd (b64.rounded_at lookback pos i)) k)).
  { apply b64_orders_lookup; rewrite length_fmap, Hlen; [|lia].
    intros i Hi. unfold rounded.
    by rewrite list_lookup_fmap, b64_rounded_lookup. }
  assert (Hc1 : closed1 !! k = Some (nth k closed1 0%float)).
  { destruct (nth_lookup_or_length closed1 k 0%float); [done|lia]. }
  assert (Hc2 : closed2 !! k = Some (nth k closed2 0%float)).
  { destruct (nth_lookup_or_length closed2 k 0%float); [done|lia]. }
  unfold b64.budget_step, iloc, bind, ret.
  rewrite !list_lookup_fmap, Ho1, Ho2, Hc1, Hc2. simpl. done.
Qed.

(** C7, as amended.  In [returns], on closes that cover the dates of the
    positions, the result is budget / init_budget - 1 for the budget that
    every date before the last has been charged, per instrument, the
    order at the close of the date and the commission of that order; the
    commission of an order q is max(|q| * 0.0035, 0.35) in binary64 when q
    is not zero and 0 when it is.  An order of 50 costs 0.35 and an order
    of 0 costs 0; an order of 200 costs 200 * 0.0035, which in binary64
    is 0.7000000000000001. *)
Theorem returns_charges_commission (lookback : nat)
    (optimal_positions : list (float * float)) (closed1 closed2 : list float)
    (first1 first2 : float) :
  closed1 !! 0%nat = Some first1 ->
  closed2 !! 0%nat = Some first2 ->
  (length optimal_positions - 1 <= length closed1)%nat ->
  (length optimal_positions - 1 <= length closed2)%nat ->
  let init_budget := (1000 * (first1 + first2))%float in
  b64.returns lookback optimal_positions closed1 closed2
  = inr (b64.budget_after lookback optimal_positions closed1 closed2
           (b64._truncate init_budget 2)
           (length optimal_positions - 1) / init_budget - 1)%float
  /\ (forall q, (q =? 0)%float = false ->
        b64.commission q = b64.max (abs q * 0.0035)%float 0.35%float)
  /\ (forall q, (q =? 0)%float = true -> b64.commission q = 0%float)
  /\ b64.commission 50 = 0.35%float
  /\ b64.commission 0 = 0%float
  /\ b64.commission 200 = (200 * 0.0035)%float
  /\ b64.commission 200 = 0.7000000000000001%float.
Proof.
  intros Hc1 Hc2 Hn1 Hn2 init_budget. split.
  - unfold b64.returns. cbv zeta. unfold iloc at 1 2. rewrite Hc1, Hc2.
    unfold ret at 1 2. unfold bind at 1 2. cbv beta iota.
    fold init_budget. unfold b64.budget_loop, ret at 1.
    assert (Hrange : np.range 0
              (length (b64.orders
                         (b64.rounded_positions lookback
                            optimal_positions).*1) - 1)
            = seq 0 (length optimal_positions - 1)).
    { unfold np.range. rewrite b64_orders_length, length_fmap,
        b64_rounded_length. f_equal. lia. }
    rewrite Hrange, b64_budget_fold by lia. done.
  - split; [|split]; [| |by vm_compute].
    + intros q Hq. unfold b64.commission. by rewrite Hq.
    + intros q Hq. unfold b64.commission. by rewrite Hq.
Qed.

Lemma returns_charges_commission_witness :
  b64.returns 1 [(1, -1); (1, -1); (0.5, -1); (2, 3)]%float
              [1; 3; 4; 8]%float [1; 2; 3; 4]%float
  = inr (b64.budget_after 1 [(1, -1); (1, -1); (0.5, -1); (2, 3)]%float
           [1; 3; 4; 8]%float [1; 2; 3; 4]%float
           (b64._truncate (1000 * (1 + 1)) 2) 3 / (1000 * (1 + 1)) - 1)%float
  /\ b64.budget_after 1 [(1, -1); (1, -1); (0.5, -1); (2, 3)]%float
        [1; 3; 4; 8]%float [1; 2; 3; 4]%float 2000 3 = 2991.25%float
  /\ b64.returns 1 [(1, -1); (1, -1); (0.5, -1); (2, 3)]%float
                  [1; 3; 4; 8]%float [1; 2; 3; 4]%float
     = inr 0.49562499999999998%float.
Proof.
  split; [|by vm_compute].
  apply (returns_charges_commission 1
           [(1, -1); (1, -1); (0.5, -1); (2, 3)]%float
           [1; 3; 4; 8]%float [1; 2; 3; 4]%float 1%float 1%float);
    [reflexivity|reflexivity|simpl; lia|simpl; lia].
Defined.

(** C7, as the specification states it, fails: an order of 200 does not
    cost exactly 0.70.  The commission is the double 200 * 0.0035, one
    unit in the last place above the double 0.70, and the comparison
    [commission == 0.70] is false. *)
Lemma commission_200_counterexample :
  ~ (b64.commission 200 = 0.70%float)
  /\ (b64.commission 200 =? 0.70)%float = false
  /\ (0.70 <? b64.commission 200)%float = true
  /\ (b64.exact 0.70 < b64.exact (b64.commission 200))%Q.
Proof.
  split; [|by vm_compute].
  intros H. assert (Heqb : (b64.commission 200 =? 0.70)%float = true)
    by (rewrite H; by vm_compute).
  vm_compute in Heqb. discriminate Heqb.
Qed.

(** ** C9: the budget needed for a hedge ratio *)



